(** * Deferred executor table of quantum/deferred_exec.c

    A shallow embedding of the deferred-execution scheduler: the slot
    table, the occupancy bitmap, the token scheme and the four
    operations [defer_exec], [extend_deferred_exec],
    [cancel_deferred_exec] and [deferred_exec_task].

    Machine integers are values of [Z] with the truncation of every store
    written out.  The millisecond clock [timer_read32()] is an external
    collaborator: every operation that reads it takes the value read as
    its argument [now].  Callbacks are modelled as functions of the
    trigger time and the argument returning the re-arm delay; they do not
    call back into the table. *)

From Stdlib Require Import ZArith Lia Bool List Sorted.
From stdpp Require Import base list.

Local Open Scope Z_scope.

(** ** Machine integers *)

Definition uint8_t (x : Z) : Z := x mod 2 ^ 8.
Definition uint32_t (x : Z) : Z := x mod 2 ^ 32.

(** The cast [(int32_t)x] of a 32-bit unsigned value: two's complement. *)
Definition int32_t (x : Z) : Z :=
  let y := x mod 2 ^ 32 in
  if y <? 2 ^ 31 then y else y - 2 ^ 32.

(** ** Configuration (lines 8-38 of the source, default build) *)

Definition MAX_DEFERRED_EXECUTORS : Z := 4.

(** [MAX_DEFERRED_EXECUTORS < 9], hence [free_executors_t] is [uint8_t]
    and [MAX_TOKEN_VALUE] is 256. *)
Definition free_executors_t (x : Z) : Z := uint8_t x.
Definition MAX_TOKEN_VALUE : Z := 256.

(** Modelled from the spec: the header deferred_exec.h, which declares
    [deferred_token] and [INVALID_DEFERRED_TOKEN], is not part of the
    sources.  The token space has [MAX_TOKEN_VALUE] values, split in
    [MAX_DEFERRED_EXECUTORS] bands, and the reserved invalid token is 0. *)
Definition deferred_token (x : Z) : Z := x mod MAX_TOKEN_VALUE.
Definition INVALID_DEFERRED_TOKEN : Z := 0.

(** Modelled from the spec: timer.h is not part of the sources.
    [TIMER_DIFF_32 a b] is the wraparound-safe difference of two readings
    of the 32-bit millisecond counter. *)
Definition TIMER_DIFF_32 (a b : Z) : Z := uint32_t (a - b).

(** The width of a band, [MAX_TOKEN_VALUE / MAX_DEFERRED_EXECUTORS]. *)
Definition band_size : Z := MAX_TOKEN_VALUE / MAX_DEFERRED_EXECUTORS.

(** ** Data model *)

(** [deferred_exec_callback]: a pointer to a function that takes the
    trigger time and the argument pointer and returns a [uint32_t].
    A NULL function pointer is [None]; the argument pointer is an
    address, NULL being 0. *)
Definition deferred_exec_callback : Type := Z -> Z -> Z.

Definition NULL : Z := 0.

(** [!callback] *)
Definition is_null (cb : option deferred_exec_callback) : bool :=
  match cb with
  | None => true
  | Some _ => false
  end.

Record deferred_executor_t : Type := mk_executor {
  token : Z;
  trigger_time : Z;
  callback : option deferred_exec_callback;
  cb_arg : Z
}.

(** The three static variables of the module. *)
Record table : Type := mk_table {
  last_deferred_exec_check : Z;
  basic_executors : list deferred_executor_t;
  basic_executors_free : Z
}.

(** Static initialisation: everything is zero. *)
Definition zero_executor : deferred_executor_t := mk_executor 0 0 None NULL.

Definition init_table : table :=
  mk_table 0 (replicate (Z.to_nat MAX_DEFERRED_EXECUTORS) zero_executor) 0.

(** Field updates, as the assignments through [entry->] perform them. *)
Definition set_token (v : Z) (e : deferred_executor_t) : deferred_executor_t :=
  mk_executor v (trigger_time e) (callback e) (cb_arg e).
Definition set_trigger_time (v : Z) (e : deferred_executor_t) : deferred_executor_t :=
  mk_executor (token e) v (callback e) (cb_arg e).
Definition set_callback (v : option deferred_exec_callback) (e : deferred_executor_t)
  : deferred_executor_t :=
  mk_executor (token e) (trigger_time e) v (cb_arg e).
Definition set_cb_arg (v : Z) (e : deferred_executor_t) : deferred_executor_t :=
  mk_executor (token e) (trigger_time e) (callback e) v.

Definition set_entry (i : nat) (e : deferred_executor_t) (t : table) : table :=
  mk_table (last_deferred_exec_check t) (<[i := e]> (basic_executors t))
           (basic_executors_free t).
Definition set_free (v : Z) (t : table) : table :=
  mk_table (last_deferred_exec_check t) (basic_executors t) v.
Definition set_last_check (v : Z) (t : table) : table :=
  mk_table v (basic_executors t) (basic_executors_free t).

(** ** Outcomes

    An array access outside [basic_executors] and a call through a NULL
    function pointer have no defined behaviour in C: they are faults of
    the model.  [Diverged] is the exhaustion of the loop budget of
    [task_loop]; it is shown never to happen. *)
Inductive fault : Type :=
| OutOfRange (i : nat)
| NullCallback (i : nat)
| Diverged.

Inductive outcome (A : Type) : Type :=
| Ok (a : A)
| Fault (f : fault).
Arguments Ok {A} a.
Arguments Fault {A} f.

Definition bind {A B : Type} (m : outcome A) (k : A -> outcome B) : outcome B :=
  match m with
  | Ok a => k a
  | Fault f => Fault f
  end.

Notation "'do' x <- m ; k" := (bind m (fun x => k))
  (at level 10, x name, m at level 100, k at level 200).

(** [&basic_executors[i]] followed by a read of the entry. *)
Definition entry_at (i : nat) (t : table) : outcome deferred_executor_t :=
  match basic_executors t !! i with
  | Some e => Ok e
  | None => Fault (OutOfRange i)
  end.

(** ** defer_exec (lines 79-114) *)

(** Lines 92-101: the new token of slot [i] whose token field is [tok]. *)
Definition next_token (i : nat) (tok : Z) : Z :=
  let tok1 := deferred_token (tok + 1) in
  if tok1 >=? Z.of_nat i * band_size + band_size - 1 then
    let tok2 := deferred_token (Z.of_nat i * band_size) in
    if tok2 =? INVALID_DEFERRED_TOKEN then deferred_token (INVALID_DEFERRED_TOKEN + 1)
    else tok2
  else tok1.

(** Lines 88-107: slot [i] is claimed. *)
Definition claim_slot (now delay_ms : Z) (cb : option deferred_exec_callback)
    (arg : Z) (i : nat) (t : table) : outcome (Z * table) :=
  let t1 := set_free (free_executors_t
                        (Z.lor (basic_executors_free t) (Z.shiftl 1 (Z.of_nat i)))) t in
  do entry <- entry_at i t1 ;
  let entry := set_token (next_token i (token entry)) entry in
  let entry := set_trigger_time (uint32_t (now + delay_ms)) entry in
  let entry := set_callback cb entry in
  let entry := set_cb_arg arg entry in
  Ok (token entry, set_entry i entry t1).

(** The [for] loop of lines 86-110: [n] iterations remain, [i] is the
    loop counter and [free] the shifted local copy of the bitmap. *)
Fixpoint defer_loop (n : nat) (now delay_ms : Z) (cb : option deferred_exec_callback)
    (arg : Z) (i : nat) (free : Z) (t : table) : outcome (Z * table) :=
  match n with
  | O => Ok (INVALID_DEFERRED_TOKEN, t)
  | S n' =>
      if Z.land free 1 =? 0 then claim_slot now delay_ms cb arg i t
      else defer_loop n' now delay_ms cb arg (S i) (free_executors_t (Z.shiftr free 1)) t
  end.

Definition defer_exec_advanced (now delay_ms : Z) (cb : option deferred_exec_callback)
    (arg : Z) (t : table) : outcome (Z * table) :=
  if (delay_ms =? 0) || is_null cb then Ok (INVALID_DEFERRED_TOKEN, t)
  else defer_loop (Z.to_nat MAX_DEFERRED_EXECUTORS) now delay_ms cb arg 0%nat
                  (basic_executors_free t) t.

(** ** extend_deferred_exec (lines 123-142) *)

(** [uint8_t index = token / (MAX_TOKEN_VALUE / MAX_DEFERRED_EXECUTORS)]. *)
Definition token_index (tok : Z) : nat := Z.to_nat (uint8_t (tok / band_size)).

Definition extend_deferred_exec_advanced (now tok delay_ms : Z) (t : table)
  : outcome (bool * table) :=
  if (delay_ms =? 0) || (tok =? INVALID_DEFERRED_TOKEN) then Ok (false, t)
  else
    let index := token_index tok in
    do entry <- entry_at index t ;
    if token entry =? tok then
      Ok (true, set_entry index (set_trigger_time (uint32_t (now + delay_ms)) entry) t)
    else Ok (false, t).

(** ** cancel_deferred_exec (lines 150-165) *)

Definition cancel_deferred_exec_advanced (tok : Z) (t : table) : outcome (bool * table) :=
  let index := token_index tok in
  do entry <- entry_at index t ;
  if token entry =? tok then
    Ok (true, set_entry index (set_cb_arg NULL (set_callback None entry)) t)
  else Ok (false, t).

(** ** deferred_exec_task (lines 177-215) *)

(** One invocation of a callback: the slot, and the two arguments passed. *)
Record invocation : Type := mk_invocation {
  inv_slot : nat;
  inv_trigger_time : Z;
  inv_cb_arg : Z
}.

(** Line 192: the test that decides whether an entry is executed. *)
Definition is_due (now : Z) (entry : deferred_executor_t) : bool :=
  negb (token entry =? INVALID_DEFERRED_TOKEN)
  && (int32_t (TIMER_DIFF_32 (trigger_time entry) now) <=? 0).

(** Lines 188-210: the body of the loop for slot [i] whose bit is set. *)
Definition task_entry (now : Z) (i : nat) (t : table)
  : outcome (table * list invocation) :=
  do entry <- entry_at i t ;
  if is_due now entry then
    match callback entry with
    | None => Fault (NullCallback i)
    | Some f =>
        let delay_ms := uint32_t (f (trigger_time entry) (cb_arg entry)) in
        let call := mk_invocation i (trigger_time entry) (cb_arg entry) in
        if delay_ms >? 0 then
          Ok (set_entry i (set_trigger_time
                             (uint32_t (trigger_time entry + delay_ms)) entry) t,
              [call])
        else
          let t1 := set_free (free_executors_t
                                (Z.land (basic_executors_free t)
                                        (Z.lnot (Z.shiftl 1 (Z.of_nat i))))) t in
          Ok (set_entry i (set_cb_arg NULL (set_callback None entry)) t1, [call])
    end
  else Ok (t, []).

(** The [while (free != 0)] loop of lines 187-213.  The loop ends when the
    local copy [free] has been shifted down to zero; [fuel] bounds the
    number of iterations of the model. *)
Fixpoint task_loop (fuel : nat) (now : Z) (free : Z) (i : nat) (t : table)
  : outcome (table * list invocation) :=
  if free =? 0 then Ok (t, [])
  else
    match fuel with
    | O => Fault Diverged
    | S fuel' =>
        do r <- (if Z.land free 1 =? 1 then task_entry now i t else Ok (t, [])) ;
        do r' <- task_loop fuel' now (free_executors_t (Z.shiftr free 1)) (S i) (fst r) ;
        Ok (fst r', snd r ++ snd r')
    end.

(** The bitmap has eight bits, so eight iterations exhaust it. *)
Definition free_executors_bits : nat := 8.

Definition deferred_exec_advanced_task (now : Z) (t : table)
  : outcome (table * list invocation) :=
  if int32_t (TIMER_DIFF_32 now (last_deferred_exec_check t)) >? 0 then
    let t1 := set_last_check now t in
    task_loop free_executors_bits now (basic_executors_free t1) 0%nat t1
  else Ok (t, []).

(** ** Basic API (lines 221-232) *)

Definition defer_exec := defer_exec_advanced.
Definition extend_deferred_exec := extend_deferred_exec_advanced.
Definition cancel_deferred_exec := cancel_deferred_exec_advanced.
Definition deferred_exec_task := deferred_exec_advanced_task.

(** ** Table predicates *)

(** Bit [i] of the bitmap: slot [i] is occupied (live). *)
Definition occupied (t : table) (i : nat) : bool :=
  Z.testbit (basic_executors_free t) (Z.of_nat i).

(** All [MAX_DEFERRED_EXECUTORS] slots are occupied. *)
Definition table_full (t : table) : Prop :=
  forall i : nat, (i < Z.to_nat MAX_DEFERRED_EXECUTORS)%nat -> occupied t i = true.

(** Every occupied entry that a pass at [now] executes has a callback. *)
Definition callbacks_present (now : Z) (t : table) : Prop :=
  forall (i : nat) (e : deferred_executor_t),
    occupied t i = true -> basic_executors t !! i = Some e ->
    is_due now e = true -> callback e <> None.

(** The number of calls made for slot [i] in a pass. *)
Definition calls_of (i : nat) (tr : list invocation) : list invocation :=
  filter (fun c => inv_slot c = i) tr.

(** Shape of the table: the array has [MAX_DEFERRED_EXECUTORS] entries,
    only the low [MAX_DEFERRED_EXECUTORS] bits of the bitmap are used, and
    the token field of slot [i] is below the wrap threshold of line 94. *)
Record table_ok (t : table) : Prop := mk_table_ok {
  ok_length : length (basic_executors t) = Z.to_nat MAX_DEFERRED_EXECUTORS;
  ok_free : 0 <= basic_executors_free t < 2 ^ MAX_DEFERRED_EXECUTORS;
  ok_token : forall (i : nat) (e : deferred_executor_t),
      basic_executors t !! i = Some e ->
      0 <= token e < Z.of_nat i * band_size + band_size - 1
}.

(** The tables the program can be in: the static initial table, and every
    table a call of the public API leaves behind.  The arguments are
    values of their C types. *)
Inductive reachable : table -> Prop :=
| reach_init : reachable init_table
| reach_defer (t t' : table) (now delay_ms arg tok : Z)
    (cb : option deferred_exec_callback) :
    reachable t ->
    defer_exec now delay_ms cb arg t = Ok (tok, t') ->
    reachable t'
| reach_extend (t t' : table) (now tok delay_ms : Z) (b : bool) :
    reachable t ->
    0 <= tok < MAX_TOKEN_VALUE ->
    extend_deferred_exec now tok delay_ms t = Ok (b, t') ->
    reachable t'
| reach_cancel (t t' : table) (tok : Z) (b : bool) :
    reachable t ->
    0 <= tok < MAX_TOKEN_VALUE ->
    cancel_deferred_exec tok t = Ok (b, t') ->
    reachable t'
| reach_task (t t' : table) (now : Z) (tr : list invocation) :
    reachable t ->
    deferred_exec_task now t = Ok (t', tr) ->
    reachable t'.

(** [touches_only P t t']: the table [t'] differs from [t] at most in the
    entries and bitmap bits of the slots selected by [P]; no token field
    changes, and the bitmap does not grow. *)
Definition touches_only (P : nat -> Prop) (t t' : table) : Prop :=
  last_deferred_exec_check t' = last_deferred_exec_check t /\
  length (basic_executors t') = length (basic_executors t) /\
  (forall j : nat,
      token <$> (basic_executors t' !! j) = token <$> (basic_executors t !! j)) /\
  (forall j : nat, ~ P j ->
      basic_executors t' !! j = basic_executors t !! j /\
      occupied t' j = occupied t j) /\
  (forall n : Z, 0 <= n -> 0 <= basic_executors_free t < 2 ^ n ->
      0 <= basic_executors_free t' < 2 ^ n).

(** The entry a claimed slot is left with. *)
Definition claimed_entry (now delay_ms : Z) (cb : option deferred_exec_callback)
    (arg : Z) (i : nat) (e : deferred_executor_t) : deferred_executor_t :=
  mk_executor (next_token i (token e)) (uint32_t (now + delay_ms)) cb arg.

(** ** Sample callbacks and tables *)

(** A callback that declines repetition, and one that asks to be called
    again [d] milliseconds after its trigger time. *)
Definition one_shot : deferred_exec_callback := fun _ _ => 0.
Definition periodic (d : Z) : deferred_exec_callback := fun _ _ => d.

Definition table_of {A : Type} (r : outcome (A * table)) : table :=
  match r with
  | Ok (_, t) => t
  | Fault _ => init_table
  end.

Definition table_after (r : outcome (table * list invocation)) : table :=
  match r with
  | Ok (t, _) => t
  | Fault _ => init_table
  end.

(** One booking at time 0, due at 10; then a second one. *)
Definition booked_once : table :=
  table_of (defer_exec 0 10 (Some one_shot) 7 init_table).
Definition booked_twice : table :=
  table_of (defer_exec 0 10 (Some one_shot) 7 booked_once).

(** The first booking cancelled, and cancelled again. *)
Definition cancelled_once : table := table_of (cancel_deferred_exec 1 booked_once).
Definition cancelled_twice : table := table_of (cancel_deferred_exec 1 cancelled_once).

(** The first booking fired at time 10: its slot is free again. *)
Definition fired_once : table := table_after (deferred_exec_task 10 booked_once).

(** A periodic booking at time 0, due at 10, repeating every 100 ms. *)
Definition booked_periodic : table :=
  table_of (defer_exec 0 10 (Some (periodic 100)) 7 init_table).

(** All four slots booked. *)
Definition booked_full : table :=
  table_of (defer_exec 0 10 (Some one_shot) 7
    (table_of (defer_exec 0 10 (Some one_shot) 7 booked_twice))).

(** ** Build-time configuration (lines 8-38)

    The preprocessor conditionals, as functions of the value given to
    [MAX_DEFERRED_EXECUTORS] by the build. *)

(** Lines 13-28: a value that is not a power of two is raised to a tier. *)
Definition round_executors (n : Z) : Z :=
  if negb (Z.land n (n - 1) =? 0) then
    if n <? 4 then 4
    else if n <? 8 then 8
    else if n <? 16 then 16
    else 32
  else n.

(** Lines 30-38: the width of [free_executors_t] in bits and
    [MAX_TOKEN_VALUE]; [None] is the [#error]. *)
Definition select_token_space (n : Z) : option (Z * Z) :=
  if n <? 9 then Some (8, 256)
  else if n <? 17 then Some (16, 65536)
  else None.

(** The configuration of a build that asks for [n] executors: the number
    of slots, the width of the bitmap and [MAX_TOKEN_VALUE]. *)
Definition configure (n : Z) : option (Z * Z * Z) :=
  match select_token_space (round_executors n) with
  | Some (width, max_token) => Some (round_executors n, width, max_token)
  | None => None
  end.

(** ** Further predicates *)

(** The calls a pass at [now] is expected to make on the entries [l],
    which start at index [i]: one for each occupied due entry, in the
    order of the array. *)
Fixpoint due_calls_from (now : Z) (occ : nat -> bool) (i : nat)
    (l : list deferred_executor_t) : list invocation :=
  match l with
  | [] => []
  | e :: l' =>
      (if occ i && is_due now e
       then [mk_invocation i (trigger_time e) (cb_arg e)]
       else [])
      ++ due_calls_from now occ (S i) l'
  end.

Definition due_calls (now : Z) (t : table) : list invocation :=
  due_calls_from now (occupied t) 0 (basic_executors t).

(** Band [i] of the token space. *)
Definition in_band (i : nat) (tok : Z) : Prop :=
  Z.of_nat i * band_size <= tok <= Z.of_nat i * band_size + band_size - 1.

(** [evolves t t']: the program gets from table [t] to table [t'] by
    calls of the public API, none of which faults. *)
Inductive evolves (t : table) : table -> Prop :=
| evolves_refl : evolves t t
| evolves_defer (t1 t2 : table) (now delay_ms arg tok : Z)
    (cb : option deferred_exec_callback) :
    evolves t t1 ->
    defer_exec now delay_ms cb arg t1 = Ok (tok, t2) ->
    evolves t t2
| evolves_extend (t1 t2 : table) (now tok delay_ms : Z) (b : bool) :
    evolves t t1 ->
    0 <= tok < MAX_TOKEN_VALUE ->
    extend_deferred_exec now tok delay_ms t1 = Ok (b, t2) ->
    evolves t t2
| evolves_cancel (t1 t2 : table) (tok : Z) (b : bool) :
    evolves t t1 ->
    0 <= tok < MAX_TOKEN_VALUE ->
    cancel_deferred_exec tok t1 = Ok (b, t2) ->
    evolves t t2
| evolves_task (t1 t2 : table) (now : Z) (tr : list invocation) :
    evolves t t1 ->
    deferred_exec_task now t1 = Ok (t2, tr) ->
    evolves t t2.

(** Three bookings made at time 0, due at 10, 20 and 5. *)
Definition booked_three : table :=
  table_of (defer_exec 0 5 (Some one_shot) 3
    (table_of (defer_exec 0 20 (Some one_shot) 2
      (table_of (defer_exec 0 10 (Some one_shot) 1 init_table))))).

(** * Properties *)

(** ** Bit-level facts about the occupancy bitmap *)

Section Bits.

Lemma bounded_iff_high_bits (x n : Z) :
  0 <= n -> (0 <= x < 2 ^ n <-> forall k, n <= k -> Z.testbit x k = false).
Proof.
  intros Hn. split.
  - intros Hx k Hk. rewrite <- (Z.mod_small x (2 ^ n)) by assumption.
    apply Z.mod_pow2_bits_high. lia.
  - intros Hhigh.
    assert (Hmod : x mod 2 ^ n = x).
    { apply Z.bits_inj'. intros k Hk. rewrite Z.testbit_mod_pow2 by assumption.
      destruct (Z.ltb_spec k n) as [Hlt | Hge]; simpl; [reflexivity |].
      symmetry. apply Hhigh. assumption. }
    rewrite <- Hmod. apply Z.mod_pos_bound. apply Z.pow_pos_nonneg; lia.
Qed.

Lemma bounded_weaken (x n m : Z) : 0 <= n <= m -> 0 <= x < 2 ^ n -> 0 <= x < 2 ^ m.
Proof.
  intros Hnm Hx. split; [lia |].
  apply Z.lt_le_trans with (2 ^ n); [lia |]. apply Z.pow_le_mono_r; lia.
Qed.

Lemma setbit_bounded (x i n : Z) :
  0 <= i < n -> 0 <= x < 2 ^ n -> 0 <= Z.setbit x i < 2 ^ n.
Proof.
  intros Hi Hx. apply bounded_iff_high_bits; [lia |]. intros k Hk.
  rewrite Z.setbit_neq by lia.
  apply (proj1 (bounded_iff_high_bits x n ltac:(lia)) Hx). assumption.
Qed.

Lemma clearbit_bounded (x i n : Z) :
  0 <= n -> 0 <= x < 2 ^ n -> 0 <= Z.clearbit x i < 2 ^ n.
Proof.
  intros Hn Hx. apply bounded_iff_high_bits; [lia |]. intros k Hk.
  rewrite Z.clearbit_eqb.
  rewrite (proj1 (bounded_iff_high_bits x n Hn) Hx k Hk). reflexivity.
Qed.

Lemma shiftr1_bounded (x n : Z) :
  0 <= n -> 0 <= x < 2 ^ n -> 0 <= Z.shiftr x 1 < 2 ^ n.
Proof.
  intros Hn Hx. apply bounded_iff_high_bits; [lia |]. intros k Hk.
  rewrite Z.shiftr_spec by lia.
  apply (proj1 (bounded_iff_high_bits x n Hn) Hx). lia.
Qed.

(** [free |= 1 << i] on an eight-bit bitmap sets bit [i]. *)
Lemma free_or_bit (x i : Z) :
  0 <= i < 8 -> 0 <= x < 2 ^ 8 ->
  free_executors_t (Z.lor x (Z.shiftl 1 i)) = Z.setbit x i.
Proof.
  intros Hi Hx. unfold free_executors_t, uint8_t.
  change (Z.lor x (Z.shiftl 1 i)) with (Z.setbit x i).
  apply Z.mod_small. apply setbit_bounded; assumption.
Qed.

(** [free &= ~(1 << i)] on an eight-bit bitmap clears bit [i]. *)
Lemma free_and_not_bit (x i : Z) :
  0 <= x < 2 ^ 8 ->
  free_executors_t (Z.land x (Z.lnot (Z.shiftl 1 i))) = Z.clearbit x i.
Proof.
  intros Hx. unfold free_executors_t, uint8_t.
  rewrite <- Z.ldiff_land. change (Z.ldiff x (Z.shiftl 1 i)) with (Z.clearbit x i).
  apply Z.mod_small. apply clearbit_bounded; [lia | assumption].
Qed.

(** [free >> 1] needs no truncation. *)
Lemma free_shift (x : Z) :
  0 <= x < 2 ^ 8 -> free_executors_t (Z.shiftr x 1) = Z.shiftr x 1.
Proof.
  intros Hx. unfold free_executors_t, uint8_t.
  apply Z.mod_small. apply shiftr1_bounded; [lia | assumption].
Qed.

(** [(free & 1) == 1] and [(free & 1) == 0] test bit 0. *)
Lemma land_1_eqb_1 (x : Z) : (Z.land x 1 =? 1) = Z.testbit x 0.
Proof.
  change 1 with (Z.ones 1) at 1. rewrite Z.land_ones by lia.
  rewrite Z.bit0_eqb. reflexivity.
Qed.

Lemma land_1_eqb_0 (x : Z) : (Z.land x 1 =? 0) = negb (Z.testbit x 0).
Proof.
  change 1 with (Z.ones 1). rewrite Z.land_ones by lia.
  rewrite Z.bit0_eqb. change (2 ^ 1) with 2.
  pose proof (Z.mod_pos_bound x 2 ltac:(lia)) as Hb.
  destruct (Z.eqb_spec (x mod 2) 0), (Z.eqb_spec (x mod 2) 1); simpl; lia || reflexivity.
Qed.

(** A nonzero bitmap of at most [n] bits is exhausted by [n] shifts. *)
Lemma shiftr_nonzero_bits (x : Z) (n : nat) :
  0 <= x < 2 ^ Z.of_nat n -> x <> 0 ->
  exists m : nat, n = S m /\ 0 <= Z.shiftr x 1 < 2 ^ Z.of_nat m.
Proof.
  intros Hx Hnz. destruct n as [| m].
  - simpl in Hx. lia.
  - exists m. split; [reflexivity |].
    apply bounded_iff_high_bits; [lia |]. intros k Hk.
    rewrite Z.shiftr_spec by lia.
    apply (proj1 (bounded_iff_high_bits x (Z.of_nat (S m)) ltac:(lia)) Hx). lia.
Qed.

End Bits.

(** ** The token scheme and slot allocation *)

Lemma index_lt_max (i : nat) (l : list deferred_executor_t) (e : deferred_executor_t) :
  length l = Z.to_nat MAX_DEFERRED_EXECUTORS -> l !! i = Some e ->
  0 <= Z.of_nat i < MAX_DEFERRED_EXECUTORS.
Proof.
  intros Hlen Hi. apply lookup_lt_Some in Hi. rewrite Hlen in Hi.
  unfold MAX_DEFERRED_EXECUTORS in *. lia.
Qed.

Lemma entry_at_ok (t : table) (i : nat) :
  length (basic_executors t) = Z.to_nat MAX_DEFERRED_EXECUTORS ->
  0 <= Z.of_nat i < MAX_DEFERRED_EXECUTORS ->
  exists e, basic_executors t !! i = Some e /\ entry_at i t = Ok e.
Proof.
  intros Hlen Hi. unfold entry_at.
  destruct (basic_executors t !! i) as [e |] eqn:He.
  - exists e. split; reflexivity.
  - apply lookup_ge_None in He. rewrite Hlen in He. lia.
Qed.

Lemma entry_at_lookup (t : table) (i : nat) (e : deferred_executor_t) :
  basic_executors t !! i = Some e -> entry_at i t = Ok e.
Proof. intros He. unfold entry_at. rewrite He. reflexivity. Qed.

(** The token a slot is given stays below the wrap threshold and is never
    the invalid token. *)
Lemma next_token_range (i : nat) (tok : Z) :
  0 <= Z.of_nat i < MAX_DEFERRED_EXECUTORS ->
  0 <= tok < Z.of_nat i * band_size + band_size - 1 ->
  0 < next_token i tok < Z.of_nat i * band_size + band_size - 1.
Proof.
  unfold next_token, deferred_token, INVALID_DEFERRED_TOKEN.
  change band_size with 64. change MAX_TOKEN_VALUE with 256.
  change MAX_DEFERRED_EXECUTORS with 4.
  intros Hi Htok.
  rewrite (Z.mod_small (tok + 1)) by lia.
  rewrite (Z.mod_small (Z.of_nat i * 64)) by lia.
  destruct (Z.geb_spec (tok + 1) (Z.of_nat i * 64 + 64 - 1)) as [Hge | Hlt].
  - destruct (Z.eqb_spec (Z.of_nat i * 64) 0) as [Hz | Hnz].
    + change ((0 + 1) mod 256) with 1. lia.
    + lia.
  - lia.
Qed.

Lemma claim_slot_eq (now delay_ms arg : Z) (cb : option deferred_exec_callback)
    (i : nat) (t : table) (e : deferred_executor_t) :
  table_ok t -> basic_executors t !! i = Some e ->
  claim_slot now delay_ms cb arg i t =
  Ok (next_token i (token e),
      mk_table (last_deferred_exec_check t)
               (<[i := claimed_entry now delay_ms cb arg i e]> (basic_executors t))
               (Z.setbit (basic_executors_free t) (Z.of_nat i))).
Proof.
  intros Hok He. unfold claim_slot.
  pose proof (index_lt_max _ _ _ (ok_length t Hok) He) as Hi.
  rewrite free_or_bit.
  - unfold entry_at, set_free. simpl. rewrite He. simpl. reflexivity.
  - unfold MAX_DEFERRED_EXECUTORS in Hi. lia.
  - apply bounded_weaken with MAX_DEFERRED_EXECUTORS;
      [unfold MAX_DEFERRED_EXECUTORS; lia | apply (ok_free t Hok)].
Qed.

(** The scan of the [for] loop: started at counter [i] on the bitmap
    shifted down [i] times, it claims the first free slot at or after
    [i], or finds the [n] slots from [i] on all occupied. *)
Lemma defer_loop_scan (now delay_ms arg : Z) (cb : option deferred_exec_callback)
    (t : table) (n : nat) :
  0 <= basic_executors_free t < 2 ^ 8 ->
  forall i : nat,
    (exists j : nat, (i <= j < i + n)%nat /\ occupied t j = false /\
       (forall k : nat, (i <= k < j)%nat -> occupied t k = true) /\
       defer_loop n now delay_ms cb arg i
         (Z.shiftr (basic_executors_free t) (Z.of_nat i)) t
       = claim_slot now delay_ms cb arg j t)
    \/ ((forall k : nat, (i <= k < i + n)%nat -> occupied t k = true) /\
        defer_loop n now delay_ms cb arg i
          (Z.shiftr (basic_executors_free t) (Z.of_nat i)) t
        = Ok (INVALID_DEFERRED_TOKEN, t)).
Proof.
  intros Hfree. induction n as [| n IH]; intros i.
  - right. split; [intros k Hk; lia | reflexivity].
  - simpl. rewrite land_1_eqb_0, Z.shiftr_spec, Z.add_0_l by lia.
    fold (occupied t i).
    destruct (occupied t i) eqn:Hocc; simpl.
    + assert (Hshift : free_executors_t
                         (Z.shiftr (Z.shiftr (basic_executors_free t) (Z.of_nat i)) 1)
                       = Z.shiftr (basic_executors_free t) (Z.of_nat (S i))).
      { rewrite Z.shiftr_shiftr by lia.
        replace (Z.of_nat i + 1) with (Z.of_nat (S i)) by lia.
        unfold free_executors_t, uint8_t. apply Z.mod_small.
        apply bounded_iff_high_bits; [lia |]. intros k Hk.
        rewrite Z.shiftr_spec by lia.
        apply (proj1 (bounded_iff_high_bits _ 8 ltac:(lia)) Hfree). lia. }
      rewrite Hshift.
      destruct (IH (S i)) as [(j & Hj & Hfreej & Hbelow & Heq) | (Hall & Heq)].
      * left. exists j. split; [lia |]. split; [assumption |]. split; [| assumption].
        intros k Hk. destruct (Nat.eq_dec k i) as [-> | Hne]; [assumption |].
        apply Hbelow. lia.
      * right. split; [| assumption].
        intros k Hk. destruct (Nat.eq_dec k i) as [-> | Hne]; [assumption |].
        apply Hall. lia.
    + left. exists i. split; [lia |]. split; [assumption |].
      split; [intros k Hk; lia | reflexivity].
Qed.

(** What a call of [defer_exec] does on a well-shaped table. *)
Lemma defer_exec_cases (now delay_ms arg : Z) (cb : option deferred_exec_callback)
    (t : table) :
  table_ok t ->
  (((delay_ms = 0 \/ cb = None) \/ table_full t) /\
   defer_exec now delay_ms cb arg t = Ok (INVALID_DEFERRED_TOKEN, t))
  \/ (exists (i : nat) (e : deferred_executor_t),
        delay_ms <> 0 /\ cb <> None /\
        0 <= Z.of_nat i < MAX_DEFERRED_EXECUTORS /\
        occupied t i = false /\
        (forall k : nat, (k < i)%nat -> occupied t k = true) /\
        basic_executors t !! i = Some e /\
        defer_exec now delay_ms cb arg t =
        Ok (next_token i (token e),
            mk_table (last_deferred_exec_check t)
              (<[i := claimed_entry now delay_ms cb arg i e]> (basic_executors t))
              (Z.setbit (basic_executors_free t) (Z.of_nat i)))).
Proof.
  intros Hok. unfold defer_exec, defer_exec_advanced.
  destruct (Z.eqb_spec delay_ms 0) as [Hz | Hnz]; cbn [orb].
  { left. split; [left; left; assumption | reflexivity]. }
  destruct cb as [f |]; cbn [is_null].
  2: { left. split; [left; right; reflexivity | reflexivity]. }
  assert (Hfree8 : 0 <= basic_executors_free t < 2 ^ 8).
  { apply bounded_weaken with MAX_DEFERRED_EXECUTORS;
      [unfold MAX_DEFERRED_EXECUTORS; lia | apply (ok_free t Hok)]. }
  pose proof (defer_loop_scan now delay_ms arg (Some f) t
                (Z.to_nat MAX_DEFERRED_EXECUTORS) Hfree8 0%nat) as Hscan.
  change (Z.of_nat 0) with 0 in Hscan. rewrite Z.shiftr_0_r in Hscan.
  destruct Hscan as [(j & Hj & Hfreej & Hbelow & Heq) | (Hall & Heq)].
  - right.
    assert (Hjmax : 0 <= Z.of_nat j < MAX_DEFERRED_EXECUTORS).
    { unfold MAX_DEFERRED_EXECUTORS in *. lia. }
    destruct (entry_at_ok t j (ok_length t Hok) Hjmax) as (e & He & _).
    exists j, e. split; [assumption |]. split; [discriminate |].
    split; [assumption |]. split; [assumption |].
    split; [intros k Hk; apply Hbelow; lia |]. split; [assumption |].
    rewrite Heq. apply claim_slot_eq; assumption.
  - left. split; [| assumption]. right. intros k Hk. apply Hall. lia.
Qed.

Lemma init_table_ok : table_ok init_table.
Proof.
  split.
  - unfold init_table. cbn [basic_executors]. apply length_replicate.
  - unfold init_table, MAX_DEFERRED_EXECUTORS. simpl. lia.
  - intros i e He. unfold init_table in He. cbn [basic_executors] in He.
    apply lookup_replicate_1 in He. destruct He as [-> Hi].
    unfold band_size, MAX_TOKEN_VALUE, MAX_DEFERRED_EXECUTORS in *. simpl token.
    change (256 / 4) with 64. lia.
Qed.

Lemma defer_exec_ok (now delay_ms arg tok : Z) (cb : option deferred_exec_callback)
    (t t' : table) :
  table_ok t -> defer_exec now delay_ms cb arg t = Ok (tok, t') -> table_ok t'.
Proof.
  intros Hok Hrun.
  destruct (defer_exec_cases now delay_ms arg cb t Hok)
    as [(_ & Heq) | (i & e & _ & _ & Hi & _ & _ & He & Heq)];
    rewrite Heq in Hrun; injection Hrun as _ <-; [assumption |].
  split; simpl.
  - rewrite length_insert. apply (ok_length t Hok).
  - apply setbit_bounded; [assumption | apply (ok_free t Hok)].
  - intros k e' Hk. apply list_lookup_insert_Some in Hk.
    destruct Hk as [(<- & <- & _) | (_ & Hk)].
    + simpl. pose proof (next_token_range i (token e) Hi (ok_token t Hok i e He)). lia.
    + apply (ok_token t Hok k e' Hk).
Qed.

(** ** Index recovery, extend and cancel *)

(** The candidate index of a token of the token space is a slot index. *)
Lemma token_index_range (tok : Z) :
  0 <= tok < MAX_TOKEN_VALUE ->
  Z.of_nat (token_index tok) = tok / band_size /\
  0 <= tok / band_size < MAX_DEFERRED_EXECUTORS.
Proof.
  intros Htok. unfold token_index, uint8_t.
  assert (Hq : 0 <= tok / band_size < MAX_DEFERRED_EXECUTORS).
  { unfold band_size, MAX_TOKEN_VALUE, MAX_DEFERRED_EXECUTORS in *.
    change (256 / 4) with 64. split.
    - apply Z.div_pos; lia.
    - apply Z.div_lt_upper_bound; lia. }
  split; [| assumption].
  rewrite Z.mod_small by (unfold MAX_DEFERRED_EXECUTORS in Hq; lia). lia.
Qed.

Lemma token_index_entry (tok : Z) (t : table) :
  table_ok t -> 0 <= tok < MAX_TOKEN_VALUE ->
  exists e, basic_executors t !! token_index tok = Some e.
Proof.
  intros Hok Htok. destruct (token_index_range tok Htok) as [Hidx Hq].
  destruct (entry_at_ok t (token_index tok) (ok_length t Hok)) as (e & He & _).
  - rewrite Hidx. assumption.
  - exists e. assumption.
Qed.

Lemma extend_eq (now tok delay_ms : Z) (t : table) (e : deferred_executor_t) :
  basic_executors t !! token_index tok = Some e ->
  extend_deferred_exec now tok delay_ms t =
  Ok (if (delay_ms =? 0) || (tok =? INVALID_DEFERRED_TOKEN) || negb (token e =? tok)
      then (false, t)
      else (true, set_entry (token_index tok)
                    (set_trigger_time (uint32_t (now + delay_ms)) e) t)).
Proof.
  intros He. unfold extend_deferred_exec, extend_deferred_exec_advanced.
  destruct ((delay_ms =? 0) || (tok =? INVALID_DEFERRED_TOKEN)); cbn [orb]; [reflexivity |].
  rewrite (entry_at_lookup _ _ _ He). cbn [bind].
  destruct (token e =? tok); reflexivity.
Qed.

Lemma cancel_eq (tok : Z) (t : table) (e : deferred_executor_t) :
  basic_executors t !! token_index tok = Some e ->
  cancel_deferred_exec tok t =
  Ok (if token e =? tok
      then (true, set_entry (token_index tok) (set_cb_arg NULL (set_callback None e)) t)
      else (false, t)).
Proof.
  intros He. unfold cancel_deferred_exec, cancel_deferred_exec_advanced.
  rewrite (entry_at_lookup _ _ _ He). cbn [bind].
  destruct (token e =? tok); reflexivity.
Qed.

(** Replacing an entry by one with the same token keeps the table shape. *)
Lemma set_entry_ok (t : table) (i : nat) (e e' : deferred_executor_t) :
  table_ok t -> basic_executors t !! i = Some e -> token e' = token e ->
  table_ok (set_entry i e' t).
Proof.
  intros Hok He Htok. split; simpl.
  - rewrite length_insert. apply (ok_length t Hok).
  - apply (ok_free t Hok).
  - intros k e'' Hk. apply list_lookup_insert_Some in Hk.
    destruct Hk as [(<- & <- & _) | (_ & Hk)].
    + rewrite Htok. apply (ok_token t Hok i e He).
    + apply (ok_token t Hok k e'' Hk).
Qed.

Lemma extend_ok (now tok delay_ms : Z) (b : bool) (t t' : table) :
  table_ok t -> 0 <= tok < MAX_TOKEN_VALUE ->
  extend_deferred_exec now tok delay_ms t = Ok (b, t') -> table_ok t'.
Proof.
  intros Hok Htok Hrun. destruct (token_index_entry tok t Hok Htok) as (e & He).
  rewrite (extend_eq _ _ _ _ _ He) in Hrun.
  destruct ((delay_ms =? 0) || (tok =? INVALID_DEFERRED_TOKEN) || negb (token e =? tok));
    injection Hrun as _ <-; [assumption |].
  apply set_entry_ok with e; [assumption | assumption | reflexivity].
Qed.

Lemma cancel_ok (tok : Z) (b : bool) (t t' : table) :
  table_ok t -> 0 <= tok < MAX_TOKEN_VALUE ->
  cancel_deferred_exec tok t = Ok (b, t') -> table_ok t'.
Proof.
  intros Hok Htok Hrun. destruct (token_index_entry tok t Hok Htok) as (e & He).
  rewrite (cancel_eq _ _ _ He) in Hrun.
  destruct (token e =? tok); injection Hrun as _ <-; [| assumption].
  apply set_entry_ok with e; [assumption | assumption | reflexivity].
Qed.

(** ** The dispatch loop *)

Lemma touches_only_refl (P : nat -> Prop) (t : table) : touches_only P t t.
Proof.
  unfold touches_only. split; [reflexivity |]. split; [reflexivity |].
  split; [reflexivity |]. split; [intros j _; split; reflexivity |].
  intros n _ Hb. exact Hb.
Qed.

Lemma touches_only_weaken (P Q : nat -> Prop) (t t' : table) :
  (forall j, P j -> Q j) -> touches_only P t t' -> touches_only Q t t'.
Proof.
  intros HPQ (Hlast & Hlen & Htok & Hout & Hbound).
  unfold touches_only. split; [assumption |]. split; [assumption |].
  split; [assumption |]. split; [| assumption].
  intros j Hj. apply Hout. intros HP. apply Hj, HPQ, HP.
Qed.

Lemma touches_only_trans (P : nat -> Prop) (t1 t2 t3 : table) :
  touches_only P t1 t2 -> touches_only P t2 t3 -> touches_only P t1 t3.
Proof.
  intros (Hlast & Hlen & Htok & Hout & Hbound) (Hlast' & Hlen' & Htok' & Hout' & Hbound').
  unfold touches_only. split; [congruence |]. split; [congruence |].
  split; [intros j; rewrite Htok'; apply Htok |].
  split.
  - intros j Hj. destruct (Hout j Hj) as [H1 H2], (Hout' j Hj) as [H3 H4].
    split; congruence.
  - intros n Hn Hb. apply Hbound'; [assumption |]. apply Hbound; assumption.
Qed.

Lemma touches_only_ok (P : nat -> Prop) (t t' : table) :
  table_ok t -> touches_only P t t' -> table_ok t'.
Proof.
  intros Hok (Hlast & Hlen & Htok & Hout & Hbound). split.
  - rewrite Hlen. apply (ok_length t Hok).
  - apply Hbound; [unfold MAX_DEFERRED_EXECUTORS; lia | apply (ok_free t Hok)].
  - intros i e' He'. specialize (Htok i). rewrite He' in Htok.
    destruct (basic_executors t !! i) as [e |] eqn:He; [| discriminate].
    injection Htok as ->. apply (ok_token t Hok i e He).
Qed.

(** Replacing entry [i] by one with the same token touches slot [i] only. *)
Lemma set_entry_touches (t : table) (i : nat) (e e' : deferred_executor_t) :
  basic_executors t !! i = Some e -> token e' = token e ->
  touches_only (eq i) t (set_entry i e' t).
Proof.
  intros He Htok. unfold touches_only. simpl.
  split; [reflexivity |]. split; [apply length_insert |]. split; [| split].
  - intros j. destruct (Nat.eq_dec i j) as [<- | Hne].
    + rewrite list_lookup_insert_eq by (apply lookup_lt_Some in He; exact He).
      rewrite He. simpl. congruence.
    + rewrite list_lookup_insert_ne by assumption. reflexivity.
  - intros j Hj. split; [apply list_lookup_insert_ne; assumption | reflexivity].
  - intros n _ Hb. assumption.
Qed.

(** Clearing bit [i] of the bitmap touches slot [i] only. *)
Lemma clear_free_touches (t : table) (i : nat) :
  touches_only (eq i) t (set_free (Z.clearbit (basic_executors_free t) (Z.of_nat i)) t).
Proof.
  unfold touches_only. simpl.
  split; [reflexivity |]. split; [reflexivity |]. split; [reflexivity |]. split.
  - intros j Hj. split; [reflexivity |]. unfold occupied. simpl.
    apply Z.clearbit_neq. intros Heq. apply Hj. lia.
  - intros n Hn Hb. apply clearbit_bounded; assumption.
Qed.

(** The released entry of lines 205-207 and the re-armed entry of line 202. *)
Lemma task_entry_eq (now : Z) (i : nat) (t : table) (e : deferred_executor_t) :
  0 <= basic_executors_free t < 2 ^ 8 ->
  basic_executors t !! i = Some e ->
  task_entry now i t =
  if is_due now e then
    match callback e with
    | None => Fault (NullCallback i)
    | Some f =>
        let delay_ms := uint32_t (f (trigger_time e) (cb_arg e)) in
        if delay_ms >? 0 then
          Ok (set_entry i (set_trigger_time (uint32_t (trigger_time e + delay_ms)) e) t,
              [mk_invocation i (trigger_time e) (cb_arg e)])
        else
          Ok (set_entry i (set_cb_arg NULL (set_callback None e))
                (set_free (Z.clearbit (basic_executors_free t) (Z.of_nat i)) t),
              [mk_invocation i (trigger_time e) (cb_arg e)])
    end
  else Ok (t, []).
Proof.
  intros Hfree He. unfold task_entry. rewrite (entry_at_lookup _ _ _ He). cbn [bind].
  rewrite free_and_not_bit by assumption. reflexivity.
Qed.

Lemma task_entry_frame (now : Z) (i : nat) (t t' : table) (tr : list invocation) :
  0 <= basic_executors_free t < 2 ^ 8 ->
  task_entry now i t = Ok (t', tr) ->
  touches_only (eq i) t t' /\ Forall (fun c => inv_slot c = i) tr.
Proof.
  intros Hfree Hrun.
  destruct (basic_executors t !! i) as [e |] eqn:He.
  2: { unfold task_entry, entry_at in Hrun. rewrite He in Hrun. discriminate. }
  rewrite (task_entry_eq now i t e Hfree He) in Hrun.
  destruct (is_due now e).
  2: { injection Hrun as <- <-. split; [apply touches_only_refl | constructor]. }
  destruct (callback e) as [f |]; [| discriminate].
  cbv zeta in Hrun.
  destruct (uint32_t (f (trigger_time e) (cb_arg e)) >? 0);
    injection Hrun as <- <-; (split; [| repeat constructor]).
  - apply set_entry_touches with e; [assumption | reflexivity].
  - apply touches_only_trans with
      (set_free (Z.clearbit (basic_executors_free t) (Z.of_nat i)) t).
    + apply clear_free_touches.
    + apply set_entry_touches with e; [exact He | reflexivity].
Qed.

Lemma task_loop_frame (now : Z) (fuel : nat) :
  forall (free : Z) (i0 : nat) (t t' : table) (tr : list invocation),
    0 <= basic_executors_free t < 2 ^ 8 ->
    task_loop fuel now free i0 t = Ok (t', tr) ->
    touches_only (fun j => (i0 <= j)%nat) t t' /\
    Forall (fun c => (i0 <= inv_slot c)%nat) tr.
Proof.
  induction fuel as [| fuel IH]; intros free i0 t t' tr Hfree Hrun.
  - simpl in Hrun. destruct (free =? 0); [| discriminate].
    injection Hrun as <- <-. split; [apply touches_only_refl | constructor].
  - simpl in Hrun. destruct (free =? 0).
    { injection Hrun as <- <-. split; [apply touches_only_refl | constructor]. }
    destruct (if Z.land free 1 =? 1 then task_entry now i0 t else Ok (t, []))
      as [[t1 tr1] | flt] eqn:Hbody; [| discriminate].
    cbn [bind fst snd] in Hrun.
    destruct (task_loop fuel now (free_executors_t (Z.shiftr free 1)) (S i0) t1)
      as [[t2 tr2] | flt] eqn:Hrest; [| discriminate].
    cbn [bind fst snd] in Hrun. injection Hrun as <- <-.
    assert (Hstep : touches_only (eq i0) t t1 /\ Forall (fun c => inv_slot c = i0) tr1).
    { destruct (Z.land free 1 =? 1).
      - apply task_entry_frame with now; assumption.
      - injection Hbody as <- <-. split; [apply touches_only_refl | constructor]. }
    destruct Hstep as [Htouch1 Htr1].
    assert (Hfree1 : 0 <= basic_executors_free t1 < 2 ^ 8).
    { destruct Htouch1 as (_ & _ & _ & _ & Hb). apply Hb; [lia | assumption]. }
    destruct (IH _ _ _ _ _ Hfree1 Hrest) as [Htouch2 Htr2].
    split.
    + apply touches_only_trans with t1.
      * apply touches_only_weaken with (eq i0); [intros j <-; lia | assumption].
      * apply touches_only_weaken with (fun j => (S i0 <= j)%nat);
          [intros j Hj; lia | assumption].
    + apply Forall_app. split.
      * eapply Forall_impl; [exact Htr1 |]. intros c Hc. simpl in Hc. lia.
      * eapply Forall_impl; [exact Htr2 |]. intros c Hc. simpl in Hc. lia.
Qed.

Lemma free_bits_8 (t : table) : table_ok t -> 0 <= basic_executors_free t < 2 ^ 8.
Proof.
  intros Hok. apply bounded_weaken with MAX_DEFERRED_EXECUTORS;
    [unfold MAX_DEFERRED_EXECUTORS; lia | apply (ok_free t Hok)].
Qed.

Lemma set_last_check_ok (now : Z) (t : table) : table_ok t -> table_ok (set_last_check now t).
Proof. intros [Hlen Hfree Htok]. split; assumption. Qed.

Lemma deferred_exec_task_ok (now : Z) (t t' : table) (tr : list invocation) :
  table_ok t -> deferred_exec_task now t = Ok (t', tr) -> table_ok t'.
Proof.
  intros Hok Hrun. unfold deferred_exec_task, deferred_exec_advanced_task in Hrun.
  destruct (int32_t (TIMER_DIFF_32 now (last_deferred_exec_check t)) >? 0).
  - pose proof (set_last_check_ok now t Hok) as Hok1.
    apply task_loop_frame in Hrun; [| apply free_bits_8; assumption].
    destruct Hrun as [Htouch _]. eapply touches_only_ok; eassumption.
  - injection Hrun as <- _. assumption.
Qed.

(** Every reachable table is well shaped. *)
Lemma reachable_ok (t : table) : reachable t -> table_ok t.
Proof.
  induction 1 as [| t t' now delay_ms arg tok cb _ IH Hrun
                  | t t' now tok delay_ms b _ IH Htok Hrun
                  | t t' tok b _ IH Htok Hrun
                  | t t' now tr _ IH Hrun].
  - apply init_table_ok.
  - eapply defer_exec_ok; eassumption.
  - eapply extend_ok; eassumption.
  - eapply cancel_ok; eassumption.
  - eapply deferred_exec_task_ok; eassumption.
Qed.

(** The pass over a bitmap that fits in [fuel] bits runs to its end when
    every entry it executes has a callback. *)
Lemma task_loop_total (now : Z) (fuel : nat) :
  forall (free : Z) (i0 : nat) (t : table),
    0 <= free < 2 ^ Z.of_nat fuel -> 0 <= free < 2 ^ 8 ->
    0 <= basic_executors_free t < 2 ^ 8 ->
    (forall j : nat, (i0 <= j)%nat ->
       Z.testbit free (Z.of_nat j - Z.of_nat i0) = true ->
       exists e, basic_executors t !! j = Some e /\
                 (is_due now e = true -> callback e <> None)) ->
    exists (t' : table) (tr : list invocation),
      task_loop fuel now free i0 t = Ok (t', tr).
Proof.
  induction fuel as [| fuel IH]; intros free i0 t Hfuel Hfree Htfree Hcb.
  - assert (free = 0) as -> by (simpl in Hfuel; lia).
    exists t, []. reflexivity.
  - cbn [task_loop]. destruct (Z.eqb_spec free 0) as [Hz | Hnz].
    { exists t, []. reflexivity. }
    destruct (shiftr_nonzero_bits free (S fuel) Hfuel Hnz) as (m & Hm & Hshift).
    injection Hm as <-.
    rewrite land_1_eqb_1, free_shift by assumption.
    assert (Hbody : exists t1 tr1,
               (if Z.testbit free 0 then task_entry now i0 t else Ok (t, []))
               = Ok (t1, tr1) /\ touches_only (eq i0) t t1).
    { destruct (Z.testbit free 0) eqn:Hbit.
      - destruct (Hcb i0 ltac:(lia)) as (e & He & Hpresent).
        { rewrite Z.sub_diag. assumption. }
        assert (Hex : exists t1 tr1, task_entry now i0 t = Ok (t1, tr1)).
        { rewrite (task_entry_eq now i0 t e Htfree He).
          destruct (is_due now e); [| eauto].
          destruct (callback e) as [f |]; [| exfalso; apply Hpresent; reflexivity].
          cbv zeta. destruct (uint32_t (f (trigger_time e) (cb_arg e)) >? 0); eauto. }
        destruct Hex as (t1 & tr1 & Hrun). exists t1, tr1. split; [assumption |].
        apply (task_entry_frame now i0 t t1 tr1 Htfree Hrun).
      - exists t, []. split; [reflexivity | apply touches_only_refl]. }
    destruct Hbody as (t1 & tr1 & -> & Htouch). cbn [bind fst snd].
    destruct Htouch as (_ & _ & _ & Hout & Hbound).
    destruct (IH (Z.shiftr free 1) (S i0) t1) as (t2 & tr2 & Hrest).
    + assumption.
    + apply shiftr1_bounded; [lia | assumption].
    + apply Hbound; [lia | assumption].
    + intros j Hj Hbit. rewrite Z.shiftr_spec in Hbit by lia.
      destruct (Hcb j ltac:(lia)) as (e & He & Hpresent).
      { rewrite <- Hbit. f_equal. lia. }
      exists e. split; [| assumption].
      destruct (Hout j ltac:(lia)) as [-> _]. assumption.
    + rewrite Hrest. cbn [bind fst snd]. eauto.
Qed.

(** A pass never faults on a well-shaped table whose executed entries all
    have a callback. *)
Lemma deferred_exec_task_total (now : Z) (t : table) :
  table_ok t -> callbacks_present now t ->
  exists (t' : table) (tr : list invocation), deferred_exec_task now t = Ok (t', tr).
Proof.
  intros Hok Hcb. unfold deferred_exec_task, deferred_exec_advanced_task.
  destruct (int32_t (TIMER_DIFF_32 now (last_deferred_exec_check t)) >? 0);
    [| exists t, []; reflexivity].
  pose proof (free_bits_8 t Hok) as Hfree.
  apply task_loop_total; try exact Hfree.
  - intros j _ Hbit. rewrite Z.sub_0_r in Hbit. cbn [set_last_check basic_executors_free] in Hbit.
    destruct (Z.lt_ge_cases (Z.of_nat j) MAX_DEFERRED_EXECUTORS) as [Hlt | Hge].
    + destruct (entry_at_ok t j (ok_length t Hok) ltac:(lia)) as (e & He & _).
      exists e. split; [exact He |]. intros Hdue. exact (Hcb j e Hbit He Hdue).
    + rewrite (proj1 (bounded_iff_high_bits _ MAX_DEFERRED_EXECUTORS
                        ltac:(unfold MAX_DEFERRED_EXECUTORS; lia)) (ok_free t Hok) _ Hge)
        in Hbit. discriminate.
Qed.

Lemma calls_of_none (i : nat) (tr : list invocation) :
  Forall (fun c => inv_slot c <> i) tr -> calls_of i tr = [].
Proof.
  unfold calls_of. induction 1 as [| c tr Hc _ IH]; [reflexivity |].
  rewrite filter_cons_False by assumption. assumption.
Qed.

Lemma calls_of_app (i : nat) (tr1 tr2 : list invocation) :
  calls_of i (tr1 ++ tr2) = calls_of i tr1 ++ calls_of i tr2.
Proof. unfold calls_of. apply filter_app. Qed.

(** The effect of a pass on one occupied, due slot [i] that has a callback:
    exactly one call for it, then the entry is re-armed or released. *)
Lemma task_loop_fires (now : Z) (i : nat) (e : deferred_executor_t)
    (fn : deferred_exec_callback) (fuel : nat) :
  forall (free : Z) (i0 : nat) (t t' : table) (tr : list invocation),
    (i0 <= i)%nat -> 0 <= free < 2 ^ 8 -> 0 <= basic_executors_free t < 2 ^ 8 ->
    Z.testbit free (Z.of_nat i - Z.of_nat i0) = true ->
    basic_executors t !! i = Some e -> is_due now e = true -> callback e = Some fn ->
    task_loop fuel now free i0 t = Ok (t', tr) ->
    let delay_ms := uint32_t (fn (trigger_time e) (cb_arg e)) in
    calls_of i tr = [mk_invocation i (trigger_time e) (cb_arg e)] /\
    basic_executors t' !! i =
      Some (if delay_ms >? 0
            then set_trigger_time (uint32_t (trigger_time e + delay_ms)) e
            else set_cb_arg NULL (set_callback None e)) /\
    occupied t' i = (if delay_ms >? 0 then occupied t i else false).
Proof.
  induction fuel as [| fuel IH];
    intros free i0 t t' tr Hi0 Hfree Htfree Hbit He Hdue Hcb Hrun delay_ms.
  - simpl in Hrun. destruct (Z.eqb_spec free 0) as [-> | _]; [| discriminate].
    rewrite Z.testbit_0_l in Hbit. discriminate.
  - cbn [task_loop] in Hrun. destruct (Z.eqb_spec free 0) as [-> | _].
    { rewrite Z.testbit_0_l in Hbit. discriminate. }
    rewrite land_1_eqb_1, free_shift in Hrun by assumption.
    destruct (if Z.testbit free 0 then task_entry now i0 t else Ok (t, []))
      as [[t1 tr1] | flt] eqn:Hbody; [| discriminate].
    cbn [bind fst snd] in Hrun.
    destruct (task_loop fuel now (Z.shiftr free 1) (S i0) t1)
      as [[t2 tr2] | flt] eqn:Hrest; [| discriminate].
    cbn [bind fst snd] in Hrun. injection Hrun as <- <-.
    rewrite calls_of_app.
    destruct (Nat.eq_dec i0 i) as [-> | Hne].
    + (* the iteration of slot [i] itself *)
      rewrite Z.sub_diag in Hbit. rewrite Hbit in Hbody.
      rewrite (task_entry_eq now i t e Htfree He), Hdue, Hcb in Hbody.
      cbv zeta in Hbody. fold delay_ms in Hbody.
      assert (Hfree1 : 0 <= basic_executors_free t1 < 2 ^ 8).
      { destruct (delay_ms >? 0); injection Hbody as <- _; simpl;
          [assumption | apply clearbit_bounded; [lia | assumption]]. }
      destruct (task_loop_frame now fuel _ _ _ _ _ Hfree1 Hrest)
        as [(_ & _ & _ & Hout & _) Htr2].
      destruct (Hout i ltac:(lia)) as [Hslot Hocc].
      rewrite Hslot, Hocc.
      assert (Hlt : (i < length (basic_executors t))%nat)
        by (apply lookup_lt_Some in He; exact He).
      rewrite (calls_of_none i tr2)
        by (eapply Forall_impl; [exact Htr2 | intros c Hc; simpl in Hc; lia]).
      destruct (delay_ms >? 0); injection Hbody as <- <-; simpl.
      * split; [| split].
        -- unfold calls_of. rewrite filter_cons_True by reflexivity. reflexivity.
        -- apply list_lookup_insert_eq. assumption.
        -- reflexivity.
      * split; [| split].
        -- unfold calls_of. rewrite filter_cons_True by reflexivity. reflexivity.
        -- apply list_lookup_insert_eq. assumption.
        -- unfold occupied. simpl. apply Z.clearbit_eq.
    + (* an earlier iteration: slot [i] is not touched *)
      assert (Hstep : touches_only (eq i0) t t1 /\ Forall (fun c => inv_slot c = i0) tr1).
      { destruct (Z.testbit free 0).
        - apply task_entry_frame with now; assumption.
        - injection Hbody as <- <-. split; [apply touches_only_refl | constructor]. }
      destruct Hstep as [(_ & _ & _ & Hout & Hbound) Htr1].
      destruct (Hout i Hne) as [Hslot Hocc].
      rewrite (calls_of_none i tr1)
        by (eapply Forall_impl; [exact Htr1 | intros c Hc; simpl in Hc; lia]).
      rewrite <- Hocc. cbn [app].
      apply (IH (Z.shiftr free 1) (S i0) t1 t2 tr2).
      * lia.
      * apply shiftr1_bounded; [lia | assumption].
      * apply Hbound; [lia | assumption].
      * rewrite Z.shiftr_spec by lia. rewrite <- Hbit. f_equal. lia.
      * rewrite Hslot. assumption.
      * assumption.
      * assumption.
      * assumption.
Qed.

(** ** Sample tables are reachable *)

Lemma booked_once_reachable : reachable booked_once.
Proof.
  apply (reach_defer init_table booked_once 0 10 7 1 (Some one_shot));
    [apply reach_init | reflexivity].
Qed.

Lemma booked_twice_reachable : reachable booked_twice.
Proof.
  apply (reach_defer booked_once booked_twice 0 10 7 1 (Some one_shot));
    [apply booked_once_reachable | reflexivity].
Qed.

Lemma booked_full_reachable : reachable booked_full.
Proof.
  apply (reach_defer (table_of (defer_exec 0 10 (Some one_shot) 7 booked_twice))
           booked_full 0 10 7 1 (Some one_shot)); [| reflexivity].
  apply (reach_defer booked_twice _ 0 10 7 1 (Some one_shot));
    [apply booked_twice_reachable | reflexivity].
Qed.

Lemma cancelled_once_reachable : reachable cancelled_once.
Proof.
  apply (reach_cancel booked_once cancelled_once 1 true);
    [apply booked_once_reachable | unfold MAX_TOKEN_VALUE; lia | reflexivity].
Qed.

Lemma booked_periodic_reachable : reachable booked_periodic.
Proof.
  apply (reach_defer init_table booked_periodic 0 10 7 1 (Some (periodic 100)));
    [apply reach_init | reflexivity].
Qed.

Lemma fired_once_reachable : reachable fired_once.
Proof.
  apply (reach_task booked_once fired_once 10
           [mk_invocation 0 10 7]); [apply booked_once_reachable | reflexivity].
Qed.

(** * The claims *)

(** ** Scheduling *)

(** C6: on every reachable table [defer_exec] returns, and it returns
    [INVALID_DEFERRED_TOKEN] if and only if [delay_ms] is zero, the
    callback is absent, or all [MAX_DEFERRED_EXECUTORS] slots are
    occupied; when it does, the table (bitmap, slots, hence the number of
    occupied slots) is left as it was. *)
Theorem C6_defer_exec_invalid_iff (t : table) (now delay_ms arg : Z)
    (cb : option deferred_exec_callback) :
  reachable t ->
  exists (tok : Z) (t' : table),
    defer_exec now delay_ms cb arg t = Ok (tok, t') /\
    (tok = INVALID_DEFERRED_TOKEN <-> (delay_ms = 0 \/ cb = None \/ table_full t)) /\
    (tok = INVALID_DEFERRED_TOKEN -> t' = t).
Proof.
  intros Hreach. pose proof (reachable_ok t Hreach) as Hok.
  destruct (defer_exec_cases now delay_ms arg cb t Hok)
    as [(Hcond & Heq) | (i & e & Hd & Hcb & Hi & Hfree & _ & He & Heq)].
  - exists INVALID_DEFERRED_TOKEN, t. split; [assumption |]. split; [| reflexivity].
    split; [intros _; tauto | reflexivity].
  - eexists _, _. split; [exact Heq |].
    pose proof (next_token_range i (token e) Hi (ok_token t Hok i e He)) as Hnext.
    unfold INVALID_DEFERRED_TOKEN. split; [split |].
    + intros Htok. lia.
    + intros [Hz | [Hnone | Hfull]]; [contradiction | contradiction |].
      rewrite Hfull in Hfree; [discriminate |].
      unfold MAX_DEFERRED_EXECUTORS in *. lia.
    + intros Htok. lia.
Qed.

Lemma C6_defer_exec_invalid_iff_witness :
  reachable booked_full /\
  exists (tok : Z) (t' : table),
    defer_exec 40 10 (Some one_shot) 7 booked_full = Ok (tok, t') /\
    (tok = INVALID_DEFERRED_TOKEN <->
     (10 = 0 \/ Some one_shot = None \/ table_full booked_full)) /\
    (tok = INVALID_DEFERRED_TOKEN -> t' = booked_full).
Proof.
  split; [apply booked_full_reachable |].
  apply (C6_defer_exec_invalid_iff booked_full 40 10 7 (Some one_shot)).
  apply booked_full_reachable.
Defined.

(** C7: with a nonzero delay, a callback and at least one free slot,
    [defer_exec] claims the free slot of lowest index: that slot gets the
    trigger time [now + delay_ms] (32-bit), the callback and the argument,
    its bit in the bitmap is set, and the token returned, which is the
    slot's token, is not [INVALID_DEFERRED_TOKEN]. *)
Theorem C7_defer_exec_claims_lowest_free (t : table) (now delay_ms arg : Z)
    (fn : deferred_exec_callback) :
  reachable t ->
  0 < delay_ms ->
  (exists k : nat, 0 <= Z.of_nat k < MAX_DEFERRED_EXECUTORS /\ occupied t k = false) ->
  exists (i : nat) (tok : Z) (t' : table),
    defer_exec now delay_ms (Some fn) arg t = Ok (tok, t') /\
    0 <= Z.of_nat i < MAX_DEFERRED_EXECUTORS /\
    occupied t i = false /\
    (forall k : nat, (k < i)%nat -> occupied t k = true) /\
    (exists e' : deferred_executor_t,
        basic_executors t' !! i = Some e' /\
        token e' = tok /\
        trigger_time e' = uint32_t (now + delay_ms) /\
        callback e' = Some fn /\
        cb_arg e' = arg) /\
    occupied t' i = true /\
    tok <> INVALID_DEFERRED_TOKEN.
Proof.
  intros Hreach Hdelay (k & Hk & Hkfree). pose proof (reachable_ok t Hreach) as Hok.
  destruct (defer_exec_cases now delay_ms arg (Some fn) t Hok)
    as [([[Hz | Hnone] | Hfull] & _) | (i & e & _ & _ & Hi & Hfree & Hbelow & He & Heq)].
  - lia.
  - discriminate.
  - rewrite Hfull in Hkfree; [discriminate |]. unfold MAX_DEFERRED_EXECUTORS in *. lia.
  - exists i. eexists _, _. split; [exact Heq |].
    split; [assumption |]. split; [assumption |]. split; [assumption |].
    split; [| split].
    + eexists. split.
      * cbn [basic_executors]. apply list_lookup_insert_eq.
        apply lookup_lt_Some in He. exact He.
      * repeat split.
    + unfold occupied. cbn [basic_executors_free]. apply Z.setbit_eq. lia.
    + pose proof (next_token_range i (token e) Hi (ok_token t Hok i e He)) as Hnext.
      unfold INVALID_DEFERRED_TOKEN. lia.
Qed.

Lemma C7_defer_exec_claims_lowest_free_witness :
  exists (i : nat) (tok : Z) (t' : table),
    defer_exec 3 20 (Some one_shot) 9 booked_once = Ok (tok, t') /\
    0 <= Z.of_nat i < MAX_DEFERRED_EXECUTORS /\
    occupied booked_once i = false /\
    (forall k : nat, (k < i)%nat -> occupied booked_once k = true) /\
    (exists e' : deferred_executor_t,
        basic_executors t' !! i = Some e' /\
        token e' = tok /\
        trigger_time e' = uint32_t (3 + 20) /\
        callback e' = Some one_shot /\
        cb_arg e' = 9) /\
    occupied t' i = true /\
    tok <> INVALID_DEFERRED_TOKEN.
Proof.
  apply (C7_defer_exec_claims_lowest_free booked_once 3 20 9 one_shot).
  - apply booked_once_reachable.
  - lia.
  - exists 1%nat. split; [unfold MAX_DEFERRED_EXECUTORS; lia | reflexivity].
Defined.

(** ** Tokens *)

(** C1: starting from the initial table, two successful calls of
    [defer_exec] leave slots 0 and 1 both occupied and both holding
    token 1: two live slots share a token. *)
Theorem C1_two_live_slots_share_token :
  reachable booked_twice /\
  defer_exec 0 10 (Some one_shot) 7 init_table = Ok (1, booked_once) /\
  defer_exec 0 10 (Some one_shot) 7 booked_once = Ok (1, booked_twice) /\
  occupied booked_twice 0 = true /\
  occupied booked_twice 1 = true /\
  token <$> (basic_executors booked_twice !! 0%nat) = Some 1 /\
  token <$> (basic_executors booked_twice !! 1%nat) = Some 1.
Proof.
  split; [apply booked_twice_reachable |]. repeat split.
Qed.

(** C2: the first token issued by slot 1 is 1, below band 1, which is
    64..127; dividing it by the band size gives index 0, not the index of
    the slot that issued it. *)
Theorem C2_slot_1_token_outside_band :
  reachable booked_twice /\
  defer_exec 0 10 (Some one_shot) 7 booked_once = Ok (1, booked_twice) /\
  occupied booked_once 1 = false /\
  occupied booked_twice 1 = true /\
  token <$> (basic_executors booked_twice !! 1%nat) = Some 1 /\
  ~ (1 * band_size <= 1 <= 1 * band_size + band_size - 1) /\
  1 / band_size = 0 /\
  token_index 1 = 0%nat.
Proof.
  split; [apply booked_twice_reachable |].
  repeat split. unfold band_size, MAX_TOKEN_VALUE, MAX_DEFERRED_EXECUTORS.
  change (256 / 4) with 64. lia.
Qed.

(** C10: for every token value of the token space, the index computed by
    [extend_deferred_exec] and [cancel_deferred_exec] is below
    [MAX_DEFERRED_EXECUTORS], and neither operation faults on the array
    access, whether or not the token was ever issued. *)
Theorem C10_token_index_in_bounds (tok : Z) (t : table) (now delay_ms : Z) :
  0 <= tok < MAX_TOKEN_VALUE ->
  reachable t ->
  Z.of_nat (token_index tok) = tok / band_size /\
  0 <= Z.of_nat (token_index tok) < MAX_DEFERRED_EXECUTORS /\
  (exists e, entry_at (token_index tok) t = Ok e) /\
  (exists (b : bool) (t' : table),
      extend_deferred_exec now tok delay_ms t = Ok (b, t')) /\
  (exists (b : bool) (t' : table), cancel_deferred_exec tok t = Ok (b, t')).
Proof.
  intros Htok Hreach. pose proof (reachable_ok t Hreach) as Hok.
  destruct (token_index_range tok Htok) as [Hidx Hq].
  destruct (token_index_entry tok t Hok Htok) as (e & He).
  split; [assumption |]. split; [rewrite Hidx; assumption |].
  split; [exists e; apply entry_at_lookup; assumption |]. split.
  - rewrite (extend_eq now tok delay_ms t e He).
    destruct ((delay_ms =? 0) || (tok =? INVALID_DEFERRED_TOKEN) || negb (token e =? tok));
      eauto.
  - rewrite (cancel_eq tok t e He). destruct (token e =? tok); eauto.
Qed.

Lemma C10_token_index_in_bounds_witness :
  Z.of_nat (token_index 255) = 255 / band_size /\
  0 <= Z.of_nat (token_index 255) < MAX_DEFERRED_EXECUTORS /\
  (exists e, entry_at (token_index 255) booked_once = Ok e) /\
  (exists (b : bool) (t' : table),
      extend_deferred_exec 5 255 10 booked_once = Ok (b, t')) /\
  (exists (b : bool) (t' : table), cancel_deferred_exec 255 booked_once = Ok (b, t')).
Proof.
  apply (C10_token_index_in_bounds 255 booked_once 5 10).
  - unfold MAX_TOKEN_VALUE. lia.
  - apply booked_once_reachable.
Defined.

(** ** Extend and cancel *)

(** C9: on a token of the token space other than the invalid one that
    equals the token of its candidate slot, [extend_deferred_exec] with a
    nonzero delay returns true and overwrites the trigger time of that
    slot with [now + delay_ms], keeping token, callback and argument, the
    other slots, the bitmap and the last-check time; it returns false and
    leaves the table as it was when the delay is zero or the token is
    [INVALID_DEFERRED_TOKEN]. *)
Theorem C9_extend_overwrites_trigger_time (t : table) (now tok delay_ms : Z) :
  reachable t ->
  0 <= tok < MAX_TOKEN_VALUE ->
  exists e : deferred_executor_t,
    Z.of_nat (token_index tok) = tok / band_size /\
    basic_executors t !! token_index tok = Some e /\
    (0 < delay_ms -> tok <> INVALID_DEFERRED_TOKEN -> token e = tok ->
     exists t' : table,
       extend_deferred_exec now tok delay_ms t = Ok (true, t') /\
       basic_executors t' !! token_index tok =
         Some (mk_executor (token e) (uint32_t (now + delay_ms)) (callback e) (cb_arg e)) /\
       (forall j : nat, j <> token_index tok ->
          basic_executors t' !! j = basic_executors t !! j) /\
       basic_executors_free t' = basic_executors_free t /\
       last_deferred_exec_check t' = last_deferred_exec_check t) /\
    (delay_ms = 0 \/ tok = INVALID_DEFERRED_TOKEN ->
     extend_deferred_exec now tok delay_ms t = Ok (false, t)).
Proof.
  intros Hreach Htok. pose proof (reachable_ok t Hreach) as Hok.
  destruct (token_index_range tok Htok) as [Hidx _].
  destruct (token_index_entry tok t Hok Htok) as (e & He).
  exists e. split; [assumption |]. split; [assumption |].
  rewrite (extend_eq now tok delay_ms t e He). split.
  - intros Hd Hvalid Hmatch.
    destruct (Z.eqb_spec delay_ms 0) as [Hz | _]; [lia |].
    destruct (Z.eqb_spec tok INVALID_DEFERRED_TOKEN) as [Hinv | _]; [contradiction |].
    destruct (Z.eqb_spec (token e) tok) as [_ | Hne]; [| contradiction].
    cbn [orb negb]. eexists. split; [reflexivity |]. cbn. split; [| split; [| split]].
    + apply list_lookup_insert_eq. apply lookup_lt_Some in He. exact He.
    + intros j Hj. apply list_lookup_insert_ne. congruence.
    + reflexivity.
    + reflexivity.
  - intros [-> | ->].
    + reflexivity.
    + rewrite Z.eqb_refl, orb_true_r. reflexivity.
Qed.

Lemma C9_extend_overwrites_trigger_time_witness :
  (exists t' : table,
      extend_deferred_exec 4 1 25 booked_once = Ok (true, t') /\
      basic_executors t' !! 0%nat = Some (mk_executor 1 29 (Some one_shot) 7) /\
      basic_executors_free t' = basic_executors_free booked_once) /\
  extend_deferred_exec 4 1 0 booked_once = Ok (false, booked_once) /\
  extend_deferred_exec 4 0 25 booked_once = Ok (false, booked_once).
Proof.
  assert (Hone : 0 <= 1 < MAX_TOKEN_VALUE) by (unfold MAX_TOKEN_VALUE; lia).
  assert (Hzero : 0 <= 0 < MAX_TOKEN_VALUE) by (unfold MAX_TOKEN_VALUE; lia).
  split; [| split].
  - destruct (C9_extend_overwrites_trigger_time booked_once 4 1 25
                booked_once_reachable Hone) as (e & _ & He & Hsucc & _).
    vm_compute in He. injection He as <-.
    destruct Hsucc as (t' & Hrun & Hslot & _ & Hfree & _);
      [lia | discriminate | reflexivity |].
    exists t'. split; [exact Hrun |]. split; [exact Hslot | exact Hfree].
  - destruct (C9_extend_overwrites_trigger_time booked_once 4 1 0
                booked_once_reachable Hone) as (e & _ & _ & _ & Hfail).
    apply Hfail. left. reflexivity.
  - destruct (C9_extend_overwrites_trigger_time booked_once 4 0 25
                booked_once_reachable Hzero) as (e & _ & _ & _ & Hfail).
    apply Hfail. right. reflexivity.
Defined.

(** C4 as stated fails: the token field of a slot is not reset when the
    booking is cancelled or has fired, so a second cancel of the same
    token returns true again, and a stale token whose booking has fired
    and whose slot is free is still accepted by cancel and by extend. *)
Lemma C4_stale_token_accepted :
  defer_exec 0 10 (Some one_shot) 7 init_table = Ok (1, booked_once) /\
  cancel_deferred_exec 1 booked_once = Ok (true, cancelled_once) /\
  occupied cancelled_once 0 = true /\
  cancel_deferred_exec 1 cancelled_once = Ok (true, cancelled_twice) /\
  deferred_exec_task 10 booked_once = Ok (fired_once, [mk_invocation 0 10 7]) /\
  occupied fired_once 0 = false /\
  (exists t', cancel_deferred_exec 1 fired_once = Ok (true, t')) /\
  (exists t', extend_deferred_exec 11 1 5 fired_once = Ok (true, t')).
Proof.
  repeat split; eexists; reflexivity.
Qed.

(** C4, amended: [extend_deferred_exec] returns false when the delay is
    zero, when the token is [INVALID_DEFERRED_TOKEN] and when the token
    differs from the token field of its candidate slot;
    [cancel_deferred_exec] returns false when the token differs from the
    token field of its candidate slot; in all these cases the table is
    unchanged.  A token other than the invalid one that equals the token
    field of its candidate slot is accepted by both, whether or not the
    booking is still pending, and cancel leaves a table on which the same
    cancel is accepted again. *)
Theorem C4_false_exactly_on_mismatch (t : table) (now tok delay_ms : Z) :
  reachable t ->
  0 <= tok < MAX_TOKEN_VALUE ->
  exists e : deferred_executor_t,
    basic_executors t !! token_index tok = Some e /\
    (delay_ms = 0 \/ tok = INVALID_DEFERRED_TOKEN \/ token e <> tok ->
     extend_deferred_exec now tok delay_ms t = Ok (false, t)) /\
    (token e <> tok -> cancel_deferred_exec tok t = Ok (false, t)) /\
    (delay_ms <> 0 -> tok <> INVALID_DEFERRED_TOKEN -> token e = tok ->
     exists t' : table, extend_deferred_exec now tok delay_ms t = Ok (true, t')) /\
    (tok <> INVALID_DEFERRED_TOKEN -> token e = tok ->
     exists t' t'' : table,
       cancel_deferred_exec tok t = Ok (true, t') /\
       basic_executors_free t' = basic_executors_free t /\
       cancel_deferred_exec tok t' = Ok (true, t'')).
Proof.
  intros Hreach Htok. pose proof (reachable_ok t Hreach) as Hok.
  destruct (token_index_entry tok t Hok Htok) as (e & He).
  exists e. split; [assumption |].
  rewrite (extend_eq now tok delay_ms t e He), (cancel_eq tok t e He).
  split; [| split; [| split]].
  - intros [-> | [-> | Hne]].
    + reflexivity.
    + rewrite Z.eqb_refl, orb_true_r. reflexivity.
    + destruct (Z.eqb_spec (token e) tok) as [Heq | _]; [contradiction |].
      cbn [negb]. rewrite orb_true_r. reflexivity.
  - intros Hne. destruct (Z.eqb_spec (token e) tok) as [Heq | _]; [contradiction |].
    reflexivity.
  - intros Hd Hvalid Hmatch.
    destruct (Z.eqb_spec delay_ms 0) as [Hz | _]; [contradiction |].
    destruct (Z.eqb_spec tok INVALID_DEFERRED_TOKEN) as [Hinv | _]; [contradiction |].
    destruct (Z.eqb_spec (token e) tok) as [_ | Hne]; [| contradiction].
    cbn [orb negb]. eexists. reflexivity.
  - intros Hvalid Hmatch.
    destruct (Z.eqb_spec (token e) tok) as [_ | Hne]; [| contradiction].
    eexists _, _. split; [reflexivity |]. split; [reflexivity |].
    assert (Hlt : (token_index tok < length (basic_executors t))%nat)
      by (apply lookup_lt_Some in He; exact He).
    rewrite (cancel_eq tok _ (set_cb_arg NULL (set_callback None e)))
      by (cbn [set_entry basic_executors]; apply list_lookup_insert_eq; exact Hlt).
    cbn [set_cb_arg set_callback token]. rewrite (proj2 (Z.eqb_eq _ _) Hmatch).
    reflexivity.
Qed.

Lemma C4_false_exactly_on_mismatch_witness :
  extend_deferred_exec 3 70 5 booked_twice = Ok (false, booked_twice) /\
  cancel_deferred_exec 70 booked_twice = Ok (false, booked_twice) /\
  (exists t' : table, extend_deferred_exec 3 1 5 fired_once = Ok (true, t')) /\
  (exists t' t'' : table,
      cancel_deferred_exec 1 booked_once = Ok (true, t') /\
      cancel_deferred_exec 1 t' = Ok (true, t'')).
Proof.
  assert (Hone : 0 <= 1 < MAX_TOKEN_VALUE) by (unfold MAX_TOKEN_VALUE; lia).
  assert (Hfar : 0 <= 70 < MAX_TOKEN_VALUE) by (unfold MAX_TOKEN_VALUE; lia).
  split; [| split; [| split]].
  - destruct (C4_false_exactly_on_mismatch booked_twice 3 70 5
                booked_twice_reachable Hfar) as (e & He & Hext & _).
    vm_compute in He. injection He as <-.
    apply Hext. right. right. discriminate.
  - destruct (C4_false_exactly_on_mismatch booked_twice 3 70 5
                booked_twice_reachable Hfar) as (e & He & _ & Hcan & _).
    vm_compute in He. injection He as <-.
    apply Hcan. discriminate.
  - destruct (C4_false_exactly_on_mismatch fired_once 3 1 5
                fired_once_reachable Hone) as (e & He & _ & _ & Hext & _).
    vm_compute in He. injection He as <-.
    apply Hext; [discriminate | discriminate | reflexivity].
  - destruct (C4_false_exactly_on_mismatch booked_once 3 1 5
                booked_once_reachable Hone) as (e & He & _ & _ & _ & Hcan).
    vm_compute in He. injection He as <-.
    destruct Hcan as (t' & t'' & Hfirst & _ & Hsecond); [discriminate | reflexivity |].
    exists t', t''. split; assumption.
Defined.

(** ** The dispatch pass *)

(** C3: after a booking has been cancelled, its slot is still occupied,
    its token is still valid and its callback is NULL; the pass at its
    trigger time calls through that NULL pointer. *)
Theorem C3_cancelled_slot_is_invoked :
  reachable cancelled_once /\
  cancel_deferred_exec 1 booked_once = Ok (true, cancelled_once) /\
  occupied cancelled_once 0 = true /\
  basic_executors cancelled_once !! 0%nat = Some (mk_executor 1 10 None NULL) /\
  deferred_exec_task 9 cancelled_once = Ok (set_last_check 9 cancelled_once, []) /\
  deferred_exec_task 10 cancelled_once = Fault (NullCallback 0).
Proof.
  split; [apply cancelled_once_reachable |]. repeat split.
Qed.

(** C8: when the signed difference [now - last_deferred_exec_check] is not
    positive the pass returns at once, with no call and the table
    unchanged; and a pass that has run at [now] makes a second pass at the
    same [now] such a no-op. *)
Theorem C8_task_throttled (t : table) (now : Z) :
  reachable t ->
  (int32_t (TIMER_DIFF_32 now (last_deferred_exec_check t)) <= 0 ->
   deferred_exec_task now t = Ok (t, [])) /\
  (forall (t' : table) (tr : list invocation),
     deferred_exec_task now t = Ok (t', tr) ->
     deferred_exec_task now t' = Ok (t', [])).
Proof.
  intros Hreach. pose proof (reachable_ok t Hreach) as Hok.
  assert (Hthrottle : forall t0, int32_t (TIMER_DIFF_32 now (last_deferred_exec_check t0)) <= 0 ->
                             deferred_exec_task now t0 = Ok (t0, [])).
  { intros t0 Hle. unfold deferred_exec_task, deferred_exec_advanced_task.
    destruct (Z.gtb_spec (int32_t (TIMER_DIFF_32 now (last_deferred_exec_check t0))) 0);
      [lia | reflexivity]. }
  split; [apply Hthrottle |].
  intros t' tr Hrun. apply Hthrottle.
  unfold deferred_exec_task, deferred_exec_advanced_task in Hrun.
  destruct (Z.gtb_spec (int32_t (TIMER_DIFF_32 now (last_deferred_exec_check t))) 0)
    as [Hgt | Hle].
  - apply task_loop_frame in Hrun; [| apply free_bits_8, set_last_check_ok, Hok].
    destruct Hrun as [(Hlast & _) _]. rewrite Hlast. cbn [set_last_check last_deferred_exec_check].
    unfold TIMER_DIFF_32, uint32_t. rewrite Z.sub_diag. cbv. discriminate.
  - injection Hrun as <- _. assumption.
Qed.

Lemma C8_task_throttled_witness :
  deferred_exec_task 0 booked_once = Ok (booked_once, []) /\
  deferred_exec_task 10 booked_once = Ok (fired_once, [mk_invocation 0 10 7]) /\
  deferred_exec_task 10 fired_once = Ok (fired_once, []).
Proof.
  split; [| split].
  - apply (proj1 (C8_task_throttled booked_once 0 booked_once_reachable)).
    vm_compute. discriminate.
  - reflexivity.
  - apply (proj2 (C8_task_throttled booked_once 10 booked_once_reachable)
             fired_once [mk_invocation 0 10 7]).
    reflexivity.
Defined.

(** C5: a slot that meets every condition of the dispatch test (pass not
    throttled, slot occupied, valid token, signed difference
    [trigger_time - now <= 0]) but whose callback is NULL, as
    [cancel_deferred_exec] leaves it, is not dispatched: the body of the
    loop calls through the NULL pointer, so the pass makes no call with
    the slot's trigger time and argument and neither re-arms nor releases
    the slot. *)
Theorem C5_due_slot_without_callback_faults :
  reachable cancelled_once /\
  int32_t (TIMER_DIFF_32 10 (last_deferred_exec_check cancelled_once)) > 0 /\
  occupied cancelled_once 0 = true /\
  basic_executors cancelled_once !! 0%nat = Some (mk_executor 1 10 None NULL) /\
  1 <> INVALID_DEFERRED_TOKEN /\
  int32_t (TIMER_DIFF_32 10 10) <= 0 /\
  task_entry 10 0 (set_last_check 10 cancelled_once) = Fault (NullCallback 0) /\
  deferred_exec_task 10 cancelled_once = Fault (NullCallback 0).
Proof.
  split; [apply cancelled_once_reachable |].
  split; [vm_compute; reflexivity |].
  split; [reflexivity |].
  split; [reflexivity |].
  split; [discriminate |].
  split; [vm_compute; discriminate |].
  split; reflexivity.
Qed.

(** X15: on a reachable table in which every occupied due entry has a
    callback, when the pass is not throttled and slot [i] is occupied,
    holds a valid token, is due ([trigger_time - now <= 0] as a signed
    32-bit difference) and has a callback, the pass completes and calls
    that callback exactly once, with the slot's trigger time and
    argument.  If the callback returns [d > 0] the slot stays occupied and
    its trigger time becomes the previous trigger time plus [d]; if it
    returns 0 the slot's bit is cleared, its callback and argument are
    cleared, and a following [defer_exec] with a nonzero delay and a
    callback succeeds. *)
Theorem X15_due_slot_with_callback_fires_once (t : table) (now : Z) (i : nat)
    (e : deferred_executor_t) (fn : deferred_exec_callback) :
  reachable t ->
  callbacks_present now t ->
  int32_t (TIMER_DIFF_32 now (last_deferred_exec_check t)) > 0 ->
  occupied t i = true ->
  basic_executors t !! i = Some e ->
  token e <> INVALID_DEFERRED_TOKEN ->
  int32_t (TIMER_DIFF_32 (trigger_time e) now) <= 0 ->
  callback e = Some fn ->
  exists (t' : table) (tr : list invocation),
    deferred_exec_task now t = Ok (t', tr) /\
    calls_of i tr = [mk_invocation i (trigger_time e) (cb_arg e)] /\
    let d := uint32_t (fn (trigger_time e) (cb_arg e)) in
    (0 < d ->
     basic_executors t' !! i =
       Some (mk_executor (token e) (uint32_t (trigger_time e + d)) (Some fn) (cb_arg e)) /\
     occupied t' i = true) /\
    (d = 0 ->
     basic_executors t' !! i = Some (mk_executor (token e) (trigger_time e) None NULL) /\
     occupied t' i = false /\
     forall (now' delay_ms arg : Z) (fn' : deferred_exec_callback),
       0 < delay_ms ->
       exists (tok : Z) (t'' : table),
         defer_exec now' delay_ms (Some fn') arg t' = Ok (tok, t'') /\
         tok <> INVALID_DEFERRED_TOKEN).
Proof.
  intros Hreach Hpresent Hgo Hocc He Hvalid Hpast Hcb.
  pose proof (reachable_ok t Hreach) as Hok.
  destruct (deferred_exec_task_total now t Hok Hpresent) as (t' & tr & Hrun).
  exists t', tr. split; [assumption |].
  pose proof (deferred_exec_task_ok now t t' tr Hok Hrun) as Hok'.
  assert (Hdue : is_due now e = true).
  { unfold is_due. apply andb_true_intro. split.
    - apply negb_true_iff, Z.eqb_neq. assumption.
    - apply Z.leb_le. assumption. }
  unfold deferred_exec_task, deferred_exec_advanced_task in Hrun.
  destruct (Z.gtb_spec (int32_t (TIMER_DIFF_32 now (last_deferred_exec_check t))) 0)
    as [_ | Hle]; [| lia].
  pose proof (free_bits_8 t Hok) as Hfree.
  destruct (task_loop_fires now i e fn free_executors_bits
              (basic_executors_free (set_last_check now t)) 0%nat
              (set_last_check now t) t' tr) as (Hcalls & Hslot & Hbit); try assumption.
  - lia.
  - rewrite Z.sub_0_r. exact Hocc.
  - split; [assumption |]. intros d. subst d.
    destruct (Z.gtb_spec (uint32_t (fn (trigger_time e) (cb_arg e))) 0) as [Hpos | Hnpos].
    + split; [| intros Hz; lia]. intros _. split.
      * rewrite Hslot. unfold set_trigger_time. rewrite Hcb. reflexivity.
      * rewrite Hbit. exact Hocc.
    + split; [intros Hpos; lia |]. intros _. split; [| split].
      * rewrite Hslot. reflexivity.
      * assumption.
      * intros now' delay_ms arg fn' Hdelay.
        pose proof (index_lt_max _ _ _ (ok_length t Hok) He) as Hi.
        destruct (defer_exec_cases now' delay_ms arg (Some fn') t' Hok')
          as [([[Hz | Hnone] | Hfull] & _) | (k & e' & _ & _ & Hk & _ & _ & He' & Heq)].
        -- lia.
        -- discriminate.
        -- rewrite Hfull in Hbit; [discriminate |].
           unfold MAX_DEFERRED_EXECUTORS in *. lia.
        -- eexists _, _. split; [exact Heq |].
           pose proof (next_token_range k (token e') Hk (ok_token t' Hok' k e' He')).
           unfold INVALID_DEFERRED_TOKEN. lia.
Qed.

Lemma booked_periodic_callbacks_present : callbacks_present 10 booked_periodic.
Proof.
  intros i e Hocc He Hdue.
  destruct i as [| [| [| [| i]]]]; vm_compute in He, Hocc; try discriminate.
  injection He as <-. discriminate.
Qed.

Lemma booked_once_callbacks_present : callbacks_present 10 booked_once.
Proof.
  intros i e Hocc He Hdue.
  destruct i as [| [| [| [| i]]]]; vm_compute in He, Hocc; try discriminate.
  injection He as <-. discriminate.
Qed.

Lemma X15_due_slot_with_callback_fires_once_witness :
  (exists (t' : table) (tr : list invocation),
      deferred_exec_task 10 booked_periodic = Ok (t', tr) /\
      calls_of 0 tr = [mk_invocation 0 10 7] /\
      basic_executors t' !! 0%nat = Some (mk_executor 1 110 (Some (periodic 100)) 7) /\
      occupied t' 0 = true) /\
  (exists (t' : table) (tr : list invocation),
      deferred_exec_task 10 booked_once = Ok (t', tr) /\
      calls_of 0 tr = [mk_invocation 0 10 7] /\
      basic_executors t' !! 0%nat = Some (mk_executor 1 10 None NULL) /\
      occupied t' 0 = false /\
      exists (tok : Z) (t'' : table),
        defer_exec 12 30 (Some one_shot) 8 t' = Ok (tok, t'') /\
        tok <> INVALID_DEFERRED_TOKEN).
Proof.
  assert (Hgo : int32_t (TIMER_DIFF_32 10 0) > 0) by (vm_compute; reflexivity).
  assert (Hpast : int32_t (TIMER_DIFF_32 10 10) <= 0) by (vm_compute; discriminate).
  assert (Hvalid : 1 <> INVALID_DEFERRED_TOKEN) by discriminate.
  split.
  - destruct (X15_due_slot_with_callback_fires_once booked_periodic 10 0
                (mk_executor 1 10 (Some (periodic 100)) 7) (periodic 100)
                booked_periodic_reachable booked_periodic_callbacks_present
                Hgo eq_refl eq_refl Hvalid Hpast eq_refl)
      as (t' & tr & Hrun & Hcalls & Hrearm & _).
    destruct Hrearm as [Hslot Hocc]; [vm_compute; reflexivity |].
    exists t', tr. repeat split; assumption.
  - destruct (X15_due_slot_with_callback_fires_once booked_once 10 0
                (mk_executor 1 10 (Some one_shot) 7) one_shot
                booked_once_reachable booked_once_callbacks_present
                Hgo eq_refl eq_refl Hvalid Hpast eq_refl)
      as (t' & tr & Hrun & Hcalls & _ & Hrelease).
    destruct Hrelease as (Hslot & Hocc & Hagain); [reflexivity |].
    exists t', tr. split; [exact Hrun |]. split; [exact Hcalls |].
    split; [exact Hslot |]. split; [exact Hocc |].
    apply Hagain. lia.
Defined.

(** * Further properties of the code *)

(** ** Build-time configuration *)

(** X1: a build that asks for [n >= 1] executors is accepted exactly when
    [n <= 16]; the table then has the least power of two of slots that is
    at least [n], a bitmap wide enough for them, and a token space that
    splits evenly into bands of at least 32 tokens. *)
Theorem X1_configure_tiers (n : Z) :
  1 <= n ->
  (configure n <> None <-> n <= 16) /\
  (forall slots width max_token : Z,
      configure n = Some (slots, width, max_token) ->
      (exists k : Z, 0 <= k /\ slots = 2 ^ k) /\
      n <= slots < 2 * n /\
      slots <= width /\
      max_token = 2 ^ width /\
      max_token mod slots = 0 /\
      32 <= max_token / slots).
Proof.
  intros Hn. destruct (Z_le_gt_dec n 16) as [Hle | Hgt].
  - assert (Hcases : n = 1 \/ n = 2 \/ n = 3 \/ n = 4 \/ n = 5 \/ n = 6 \/ n = 7 \/ n = 8 \/
                     n = 9 \/ n = 10 \/ n = 11 \/ n = 12 \/ n = 13 \/ n = 14 \/ n = 15 \/
                     n = 16) by lia.
    split.
    + split; [intros _; assumption |]. intros _.
      repeat (destruct Hcases as [-> | Hcases]; [vm_compute; discriminate |]).
      subst n. vm_compute. discriminate.
    + intros slots width max_token Hcfg.
      assert (Hone : forall m : Z,
                 configure m = Some (slots, width, max_token) ->
                 m = 1 \/ m = 2 \/ m = 3 \/ m = 4 \/ m = 5 \/ m = 6 \/ m = 7 \/ m = 8 \/
                 m = 9 \/ m = 10 \/ m = 11 \/ m = 12 \/ m = 13 \/ m = 14 \/ m = 15 \/
                 m = 16 ->
                 slots = 2 ^ Z.log2 slots /\ m <= slots < 2 * m /\ slots <= width /\
                 max_token = 2 ^ width /\ max_token mod slots = 0 /\
                 32 <= max_token / slots).
      { intros m Hm Hmcases.
        repeat (destruct Hmcases as [-> | Hmcases];
                [vm_compute in Hm; injection Hm as <- <- <-;
                 repeat split; vm_compute; congruence |]).
        subst m. vm_compute in Hm. injection Hm as <- <- <-.
        repeat split; vm_compute; congruence. }
      destruct (Hone n Hcfg Hcases) as (Hpow & Hrest).
      split; [| exact Hrest].
      exists (Z.log2 slots). split; [apply Z.log2_nonneg | exact Hpow].
  - assert (Hnone : configure n = None).
    { unfold configure, round_executors, select_token_space.
      destruct (negb (Z.land n (n - 1) =? 0)).
      - destruct (Z.ltb_spec n 4); [lia |]. destruct (Z.ltb_spec n 8); [lia |].
        destruct (Z.ltb_spec n 16); [lia |]. reflexivity.
      - destruct (Z.ltb_spec n 9); [lia |]. destruct (Z.ltb_spec n 17); [lia |].
        reflexivity. }
    split.
    + split; [intros Hsome; contradiction | intros Hle; lia].
    + intros slots width max_token Hcfg. rewrite Hnone in Hcfg. discriminate.
Qed.

Lemma X1_configure_tiers_witness :
  configure 5 = Some (8, 8, 256) /\
  (configure 5 <> None <-> 5 <= 16) /\
  (configure 17 <> None <-> 17 <= 16).
Proof.
  split; [reflexivity |]. split.
  - apply (X1_configure_tiers 5). lia.
  - apply (X1_configure_tiers 17). lia.
Defined.

(** ** More on the dispatch loop *)

(** What a completed pass does with an entry [j] that it visits: if the
    entry is occupied and due it has a callback; otherwise the entry and
    its bit are left as they were and no call is made for it. *)
Lemma task_loop_slot (now : Z) (j : nat) (e : deferred_executor_t) (fuel : nat) :
  forall (free : Z) (i0 : nat) (t t' : table) (tr : list invocation),
    (i0 <= j)%nat -> 0 <= free < 2 ^ 8 -> 0 <= basic_executors_free t < 2 ^ 8 ->
    basic_executors t !! j = Some e ->
    task_loop fuel now free i0 t = Ok (t', tr) ->
    (Z.testbit free (Z.of_nat j - Z.of_nat i0) && is_due now e = true ->
     callback e <> None) /\
    (Z.testbit free (Z.of_nat j - Z.of_nat i0) && is_due now e = false ->
     calls_of j tr = [] /\ basic_executors t' !! j = Some e /\
     occupied t' j = occupied t j).
Proof.
  induction fuel as [| fuel IH]; intros free i0 t t' tr Hi0 Hfree Htfree He Hrun.
  - simpl in Hrun. destruct (Z.eqb_spec free 0) as [-> | _]; [| discriminate].
    injection Hrun as <- <-. rewrite Z.testbit_0_l. cbn [andb].
    split; [discriminate | intros _; repeat split; assumption].
  - cbn [task_loop] in Hrun. destruct (Z.eqb_spec free 0) as [-> | _].
    { injection Hrun as <- <-. rewrite Z.testbit_0_l. cbn [andb].
      split; [discriminate | intros _; repeat split; assumption]. }
    rewrite land_1_eqb_1, free_shift in Hrun by assumption.
    destruct (if Z.testbit free 0 then task_entry now i0 t else Ok (t, []))
      as [[t1 tr1] | flt] eqn:Hbody; [| discriminate].
    cbn [bind fst snd] in Hrun.
    destruct (task_loop fuel now (Z.shiftr free 1) (S i0) t1)
      as [[t2 tr2] | flt] eqn:Hrest; [| discriminate].
    cbn [bind fst snd] in Hrun. injection Hrun as <- <-.
    assert (Hstep : touches_only (eq i0) t t1 /\ Forall (fun c => inv_slot c = i0) tr1).
    { destruct (Z.testbit free 0).
      - apply task_entry_frame with now; assumption.
      - injection Hbody as <- <-. split; [apply touches_only_refl | constructor]. }
    destruct Hstep as [(_ & _ & _ & Hout & Hbound) Htr1].
    assert (Hfree1 : 0 <= basic_executors_free t1 < 2 ^ 8) by (apply Hbound; [lia | assumption]).
    destruct (Nat.eq_dec i0 j) as [-> | Hne].
    + rewrite Z.sub_diag.
      destruct (Z.testbit free 0) eqn:Hbit; cbn [andb].
      * rewrite (task_entry_eq now j t e Htfree He) in Hbody.
        destruct (is_due now e) eqn:Hdue.
        -- split; [| discriminate]. intros _ Hnone. rewrite Hnone in Hbody. discriminate.
        -- split; [discriminate |]. intros _. injection Hbody as <- <-.
           destruct (task_loop_frame now fuel _ _ _ _ _ Htfree Hrest)
             as [(_ & _ & _ & Hout2 & _) Htr2].
           destruct (Hout2 j ltac:(lia)) as [Hslot Hocc].
           rewrite calls_of_app, Hslot, Hocc. cbn [calls_of app].
           split; [| split; [assumption | reflexivity]].
           apply calls_of_none.
           eapply Forall_impl; [exact Htr2 | intros c Hc; simpl in Hc; lia].
      * split; [discriminate |]. intros _. injection Hbody as <- <-.
        destruct (task_loop_frame now fuel _ _ _ _ _ Htfree Hrest)
          as [(_ & _ & _ & Hout2 & _) Htr2].
        destruct (Hout2 j ltac:(lia)) as [Hslot Hocc].
        rewrite calls_of_app, Hslot, Hocc. cbn [calls_of app].
        split; [| split; [assumption | reflexivity]].
        apply calls_of_none.
        eapply Forall_impl; [exact Htr2 | intros c Hc; simpl in Hc; lia].
    + destruct (Hout j Hne) as [Hslot Hocc].
      assert (Hbiteq : Z.testbit (Z.shiftr free 1) (Z.of_nat j - Z.of_nat (S i0))
                       = Z.testbit free (Z.of_nat j - Z.of_nat i0)).
      { rewrite Z.shiftr_spec by lia. f_equal. lia. }
      destruct (IH (Z.shiftr free 1) (S i0) t1 t2 tr2) as [Hcb Hskip].
      * lia.
      * apply shiftr1_bounded; [lia | assumption].
      * assumption.
      * rewrite Hslot. assumption.
      * assumption.
      * rewrite Hbiteq in Hcb, Hskip. split; [assumption |].
        intros Hidle. destruct (Hskip Hidle) as (Hcalls & Hslot2 & Hocc2).
        rewrite calls_of_app, Hcalls, Hocc2, Hocc, app_nil_r.
        split; [| split; [assumption | reflexivity]].
        apply calls_of_none.
        eapply Forall_impl; [exact Htr1 | intros c Hc; simpl in Hc; lia].
Qed.

(** A pass over a bitmap none of whose occupied entries is due makes no
    call and leaves the table as it is. *)
Lemma task_loop_idle (now : Z) (fuel : nat) :
  forall (free : Z) (i0 : nat) (t : table),
    0 <= free < 2 ^ Z.of_nat fuel -> 0 <= free < 2 ^ 8 ->
    (forall k : nat, Z.testbit free (Z.of_nat k) = true ->
       exists e, basic_executors t !! (i0 + k)%nat = Some e /\ is_due now e = false) ->
    task_loop fuel now free i0 t = Ok (t, []).
Proof.
  induction fuel as [| fuel IH]; intros free i0 t Hfuel Hfree Hidle.
  - assert (free = 0) as -> by (simpl in Hfuel; lia). reflexivity.
  - cbn [task_loop]. destruct (Z.eqb_spec free 0) as [Hz | Hnz]; [reflexivity |].
    destruct (shiftr_nonzero_bits free (S fuel) Hfuel Hnz) as (m & Hm & Hshift).
    injection Hm as <-.
    rewrite land_1_eqb_1, free_shift by assumption.
    assert (Hbody : (if Z.testbit free 0 then task_entry now i0 t else Ok (t, []))
                    = Ok (t, [])).
    { destruct (Z.testbit free 0) eqn:Hbit; [| reflexivity].
      destruct (Hidle 0%nat Hbit) as (e & He & Hdue).
      rewrite Nat.add_0_r in He. unfold task_entry.
      rewrite (entry_at_lookup _ _ _ He). cbn [bind]. rewrite Hdue. reflexivity. }
    rewrite Hbody. cbn [bind fst snd].
    rewrite (IH (Z.shiftr free 1) (S i0) t).
    + reflexivity.
    + assumption.
    + apply shiftr1_bounded; [lia | assumption].
    + intros k Hk. rewrite Z.shiftr_spec in Hk by lia.
      replace (Z.of_nat k + 1) with (Z.of_nat (S k)) in Hk by lia.
      destruct (Hidle (S k) Hk) as (e & He & Hdue).
      exists e. split; [| assumption]. rewrite <- He. f_equal. lia.
Qed.

Lemma due_calls_from_unoccupied (now : Z) (occ : nat -> bool)
    (l : list deferred_executor_t) :
  forall i : nat, (forall k : nat, occ (i + k)%nat = false) ->
                  due_calls_from now occ i l = [].
Proof.
  induction l as [| e l IH]; intros i Hocc; [reflexivity |].
  cbn [due_calls_from]. pose proof (Hocc 0%nat) as H0. rewrite Nat.add_0_r in H0.
  rewrite H0. cbn [andb app]. apply IH. intros k.
  replace (S i + k)%nat with (i + S k)%nat by lia. apply Hocc.
Qed.

(** The calls of a completed pass are those of the occupied due entries,
    in the order of the array. *)
Lemma task_loop_trace (now : Z) (occ : nat -> bool) (fuel : nat) :
  forall (free : Z) (i0 : nat) (t t' : table) (tr : list invocation),
    0 <= free < 2 ^ 8 -> 0 <= basic_executors_free t < 2 ^ 8 ->
    (forall k : nat, Z.testbit free (Z.of_nat k) = occ (i0 + k)%nat) ->
    task_loop fuel now free i0 t = Ok (t', tr) ->
    tr = due_calls_from now occ i0 (drop i0 (basic_executors t)).
Proof.
  induction fuel as [| fuel IH]; intros free i0 t t' tr Hfree Htfree Hocc Hrun.
  - simpl in Hrun. destruct (Z.eqb_spec free 0) as [-> | _]; [| discriminate].
    injection Hrun as _ <-. symmetry. apply due_calls_from_unoccupied.
    intros k. rewrite <- Hocc. apply Z.testbit_0_l.
  - cbn [task_loop] in Hrun. destruct (Z.eqb_spec free 0) as [-> | _].
    { injection Hrun as _ <-. symmetry. apply due_calls_from_unoccupied.
      intros k. rewrite <- Hocc. apply Z.testbit_0_l. }
    rewrite land_1_eqb_1, free_shift in Hrun by assumption.
    destruct (if Z.testbit free 0 then task_entry now i0 t else Ok (t, []))
      as [[t1 tr1] | flt] eqn:Hbody; [| discriminate].
    cbn [bind fst snd] in Hrun.
    destruct (task_loop fuel now (Z.shiftr free 1) (S i0) t1)
      as [[t2 tr2] | flt] eqn:Hrest; [| discriminate].
    cbn [bind fst snd] in Hrun. injection Hrun as _ <-.
    pose proof (Hocc 0%nat) as Hocc0. rewrite Nat.add_0_r in Hocc0.
    change (Z.of_nat 0) with 0 in Hocc0.
    assert (Hstep : touches_only (eq i0) t t1).
    { destruct (Z.testbit free 0).
      - apply (task_entry_frame now i0 t t1 tr1 Htfree Hbody).
      - injection Hbody as <- _. apply touches_only_refl. }
    destruct Hstep as (_ & Hlen & _ & Hout & Hbound).
    assert (Hdrop : drop (S i0) (basic_executors t1) = drop (S i0) (basic_executors t)).
    { apply list_eq. intros k. rewrite !lookup_drop. apply Hout. lia. }
    assert (Htail : tr2 = due_calls_from now occ (S i0) (drop (S i0) (basic_executors t))).
    { rewrite <- Hdrop. apply (IH (Z.shiftr free 1) (S i0) t1 t2 tr2).
      - apply shiftr1_bounded; [lia | assumption].
      - apply Hbound; [lia | assumption].
      - intros k. rewrite Z.shiftr_spec by lia.
        replace (Z.of_nat k + 1) with (Z.of_nat (S k)) by lia.
        rewrite Hocc. f_equal. lia.
      - assumption. }
    rewrite Htail.
    destruct (basic_executors t !! i0) as [e |] eqn:He.
    + rewrite (drop_S _ _ _ He). cbn [due_calls_from]. f_equal.
      rewrite <- Hocc0.
      destruct (Z.testbit free 0); cbn [andb].
      * rewrite (task_entry_eq now i0 t e Htfree He) in Hbody.
        destruct (is_due now e); [| injection Hbody as _ <-; reflexivity].
        destruct (callback e) as [f |]; [| discriminate].
        cbv zeta in Hbody.
        destruct (uint32_t (f (trigger_time e) (cb_arg e)) >? 0);
          injection Hbody as _ <-; reflexivity.
      * injection Hbody as _ <-. reflexivity.
    + destruct (Z.testbit free 0).
      * unfold task_entry, entry_at in Hbody. rewrite He in Hbody. discriminate.
      * injection Hbody as _ <-.
        apply lookup_ge_None in He.
        rewrite !drop_ge by lia. reflexivity.
Qed.

Lemma occupied_lt_max (t : table) (j : nat) :
  table_ok t -> occupied t j = true -> 0 <= Z.of_nat j < MAX_DEFERRED_EXECUTORS.
Proof.
  intros Hok Hocc. split; [lia |].
  destruct (Z.lt_ge_cases (Z.of_nat j) MAX_DEFERRED_EXECUTORS) as [Hlt | Hge]; [assumption |].
  unfold occupied in Hocc.
  rewrite (proj1 (bounded_iff_high_bits _ MAX_DEFERRED_EXECUTORS
                    ltac:(unfold MAX_DEFERRED_EXECUTORS; lia)) (ok_free t Hok) _ Hge)
    in Hocc. discriminate.
Qed.

(** What a completed pass does with each entry, at the level of
    [deferred_exec_task]. *)
Lemma deferred_exec_task_slot (now : Z) (t t' : table) (tr : list invocation)
    (j : nat) (e : deferred_executor_t) :
  table_ok t ->
  int32_t (TIMER_DIFF_32 now (last_deferred_exec_check t)) > 0 ->
  deferred_exec_task now t = Ok (t', tr) ->
  basic_executors t !! j = Some e ->
  (occupied t j && is_due now e = true ->
   exists fn : deferred_exec_callback,
     callback e = Some fn /\
     calls_of j tr = [mk_invocation j (trigger_time e) (cb_arg e)] /\
     basic_executors t' !! j =
       Some (if uint32_t (fn (trigger_time e) (cb_arg e)) >? 0
             then set_trigger_time
                    (uint32_t (trigger_time e + uint32_t (fn (trigger_time e) (cb_arg e)))) e
             else set_cb_arg NULL (set_callback None e)) /\
     occupied t' j = (uint32_t (fn (trigger_time e) (cb_arg e)) >? 0)) /\
  (occupied t j && is_due now e = false ->
   calls_of j tr = [] /\ basic_executors t' !! j = Some e /\
   occupied t' j = occupied t j).
Proof.
  intros Hok Hgo Hrun He.
  unfold deferred_exec_task, deferred_exec_advanced_task in Hrun.
  destruct (Z.gtb_spec (int32_t (TIMER_DIFF_32 now (last_deferred_exec_check t))) 0)
    as [_ | Hle]; [| lia].
  pose proof (free_bits_8 t Hok) as Hfree.
  destruct (task_loop_slot now j e free_executors_bits
              (basic_executors_free (set_last_check now t)) 0%nat
              (set_last_check now t) t' tr ltac:(lia) Hfree Hfree He Hrun)
    as [Hcb Hskip].
  rewrite Z.sub_0_r in Hcb, Hskip.
  change (Z.testbit (basic_executors_free (set_last_check now t)) (Z.of_nat j))
    with (occupied t j) in Hcb, Hskip.
  split; [| exact Hskip].
  intros Hactive. specialize (Hcb Hactive).
  destruct (callback e) as [fn |] eqn:Hfn; [| contradiction].
  apply andb_prop in Hactive. destruct Hactive as [Hocc Hdue].
  destruct (task_loop_fires now j e fn free_executors_bits
              (basic_executors_free (set_last_check now t)) 0%nat
              (set_last_check now t) t' tr) as (Hcalls & Hslot & Hbit); try assumption.
  - lia.
  - rewrite Z.sub_0_r. exact Hocc.
  - exists fn. split; [reflexivity |]. split; [assumption |]. split; [assumption |].
    rewrite Hbit. change (occupied (set_last_check now t) j) with (occupied t j).
    rewrite Hocc. destruct (uint32_t (fn (trigger_time e) (cb_arg e)) >? 0); reflexivity.
Qed.

(** A pass never sets a bit of the bitmap. *)
Lemma deferred_exec_task_bits (now : Z) (t t' : table) (tr : list invocation) (j : nat) :
  table_ok t -> deferred_exec_task now t = Ok (t', tr) ->
  occupied t' j = true -> occupied t j = true.
Proof.
  intros Hok Hrun Hocc'.
  pose proof (deferred_exec_task_ok now t t' tr Hok Hrun) as Hok'.
  destruct (Z_gt_le_dec (int32_t (TIMER_DIFF_32 now (last_deferred_exec_check t))) 0)
    as [Hgo | Hthr].
  - pose proof (occupied_lt_max t' j Hok' Hocc') as Hj.
    destruct (entry_at_ok t j (ok_length t Hok) Hj) as (e & He & _).
    destruct (deferred_exec_task_slot now t t' tr j e Hok Hgo Hrun He) as [Hact Hskip].
    destruct (occupied t j && is_due now e) eqn:Hcase.
    + apply andb_prop in Hcase. tauto.
    + destruct (Hskip eq_refl) as (_ & _ & Hsame). rewrite <- Hsame. assumption.
  - unfold deferred_exec_task, deferred_exec_advanced_task in Hrun.
    destruct (Z.gtb_spec (int32_t (TIMER_DIFF_32 now (last_deferred_exec_check t))) 0);
      [lia |]. injection Hrun as <- _. assumption.
Qed.

Lemma deferred_exec_task_tokens (now : Z) (t t' : table) (tr : list invocation) (j : nat) :
  table_ok t -> deferred_exec_task now t = Ok (t', tr) ->
  token <$> (basic_executors t' !! j) = token <$> (basic_executors t !! j).
Proof.
  intros Hok Hrun. unfold deferred_exec_task, deferred_exec_advanced_task in Hrun.
  destruct (int32_t (TIMER_DIFF_32 now (last_deferred_exec_check t)) >? 0).
  - apply task_loop_frame in Hrun; [| apply free_bits_8, set_last_check_ok, Hok].
    destruct Hrun as [(_ & _ & Htok & _) _]. apply Htok.
  - injection Hrun as <- _. reflexivity.
Qed.

(** What [extend_deferred_exec] and [cancel_deferred_exec] leave of an
    entry: they write neither a token nor the bitmap. *)
Lemma extend_tokens (now tok delay_ms : Z) (b : bool) (t t' : table) :
  extend_deferred_exec now tok delay_ms t = Ok (b, t') ->
  basic_executors_free t' = basic_executors_free t /\
  last_deferred_exec_check t' = last_deferred_exec_check t /\
  forall j : nat,
    token <$> (basic_executors t' !! j) = token <$> (basic_executors t !! j) /\
    callback <$> (basic_executors t' !! j) = callback <$> (basic_executors t !! j) /\
    cb_arg <$> (basic_executors t' !! j) = cb_arg <$> (basic_executors t !! j).
Proof.
  intros Hrun. unfold extend_deferred_exec, extend_deferred_exec_advanced in Hrun.
  destruct ((delay_ms =? 0) || (tok =? INVALID_DEFERRED_TOKEN)).
  { injection Hrun as _ <-. repeat split. }
  unfold entry_at in Hrun.
  destruct (basic_executors t !! token_index tok) as [e |] eqn:He; [| discriminate].
  cbn [bind] in Hrun. destruct (token e =? tok); injection Hrun as _ <-.
  2: { repeat split. }
  split; [reflexivity |]. split; [reflexivity |]. intros j. cbn [set_entry basic_executors].
  destruct (Nat.eq_dec (token_index tok) j) as [<- | Hne].
  - rewrite list_lookup_insert_eq by (apply lookup_lt_Some in He; exact He).
    rewrite He. repeat split.
  - rewrite list_lookup_insert_ne by assumption. repeat split.
Qed.

Lemma cancel_tokens (tok : Z) (b : bool) (t t' : table) :
  cancel_deferred_exec tok t = Ok (b, t') ->
  basic_executors_free t' = basic_executors_free t /\
  last_deferred_exec_check t' = last_deferred_exec_check t /\
  forall j : nat,
    token <$> (basic_executors t' !! j) = token <$> (basic_executors t !! j) /\
    trigger_time <$> (basic_executors t' !! j)
      = trigger_time <$> (basic_executors t !! j) /\
    (j <> token_index tok -> basic_executors t' !! j = basic_executors t !! j) /\
    (forall e, basic_executors t !! j = Some e -> callback e = None ->
               exists e', basic_executors t' !! j = Some e' /\ callback e' = None).
Proof.
  intros Hrun. unfold cancel_deferred_exec, cancel_deferred_exec_advanced in Hrun.
  unfold entry_at in Hrun.
  destruct (basic_executors t !! token_index tok) as [e |] eqn:He; [| discriminate].
  cbn [bind] in Hrun. destruct (token e =? tok); injection Hrun as _ <-.
  2: { split; [reflexivity |]. split; [reflexivity |]. intros j.
       repeat split. intros e0 He0 Hcb. exists e0. split; assumption. }
  split; [reflexivity |]. split; [reflexivity |]. intros j. cbn [set_entry basic_executors].
  destruct (Nat.eq_dec (token_index tok) j) as [<- | Hne].
  - rewrite list_lookup_insert_eq by (apply lookup_lt_Some in He; exact He).
    rewrite He. split; [reflexivity |]. split; [reflexivity |].
    split; [intros Hj; contradiction |].
    intros e0 _ _. eexists. split; reflexivity.
  - rewrite list_lookup_insert_ne by assumption.
    split; [reflexivity |]. split; [reflexivity |]. split; [reflexivity |].
    intros e0 He0 Hcb. exists e0. split; assumption.
Qed.

Lemma booked_three_reachable : reachable booked_three.
Proof.
  apply (reach_defer
           (table_of (defer_exec 0 20 (Some one_shot) 2
              (table_of (defer_exec 0 10 (Some one_shot) 1 init_table))))
           booked_three 0 5 3 1 (Some one_shot)); [| reflexivity].
  apply (reach_defer (table_of (defer_exec 0 10 (Some one_shot) 1 init_table))
           _ 0 20 2 1 (Some one_shot)); [| reflexivity].
  apply (reach_defer init_table _ 0 10 1 1 (Some one_shot));
    [apply reach_init | reflexivity].
Qed.

Lemma booked_three_callbacks_present (now : Z) : callbacks_present now booked_three.
Proof.
  intros i e Hocc He Hdue.
  destruct i as [| [| [| [| i]]]]; vm_compute in He, Hocc; try discriminate;
    injection He as <-; discriminate.
Qed.

(** ** The calls of a pass *)

Lemma due_calls_from_elem (now : Z) (occ : nat -> bool) (l : list deferred_executor_t) :
  forall (i : nat) (c : invocation),
    c ∈ due_calls_from now occ i l <->
    exists (k : nat) (e : deferred_executor_t),
      l !! k = Some e /\ occ (i + k)%nat = true /\ is_due now e = true /\
      c = mk_invocation (i + k) (trigger_time e) (cb_arg e).
Proof.
  induction l as [| e l IH]; intros i c; cbn [due_calls_from].
  - split; [intros Hin; inversion Hin | intros (k & e & Hk & _); discriminate].
  - rewrite elem_of_app, IH. split.
    + intros [Hhead | (k & e' & Hk & Hocc & Hdue & ->)].
      * destruct (occ i && is_due now e) eqn:Hcond; [| inversion Hhead].
        apply list_elem_of_singleton in Hhead. subst c.
        apply andb_prop in Hcond. destruct Hcond as [Hocc Hdue].
        exists 0%nat, e. rewrite Nat.add_0_r. repeat split; assumption.
      * exists (S k), e'. replace (i + S k)%nat with (S i + k)%nat by lia.
        repeat split; assumption.
    + intros (k & e' & Hk & Hocc & Hdue & ->). destruct k as [| k].
      * left. injection Hk as ->. rewrite Nat.add_0_r in *.
        rewrite Hocc, Hdue. cbn [andb]. apply list_elem_of_singleton. reflexivity.
      * right. exists k, e'. replace (S i + k)%nat with (i + S k)%nat by lia.
        repeat split; assumption.
Qed.

Lemma due_calls_from_sorted (now : Z) (occ : nat -> bool) (l : list deferred_executor_t) :
  forall i : nat,
    StronglySorted (fun a b => (inv_slot a < inv_slot b)%nat) (due_calls_from now occ i l).
Proof.
  induction l as [| e l IH]; intros i; cbn [due_calls_from]; [constructor |].
  destruct (occ i && is_due now e); cbn [app]; [| apply IH].
  constructor; [apply IH |].
  apply Forall_forall. intros c Hc. apply due_calls_from_elem in Hc.
  destruct Hc as (k & e' & _ & _ & _ & ->). cbn [inv_slot]. lia.
Qed.

(** X2: a pass that is not throttled, on a reachable table whose due
    entries all have a callback, completes, and the calls it makes are
    exactly one call for each occupied due entry, with that entry's
    trigger time and argument, in ascending order of the slot index. *)
Theorem X2_pass_calls_in_index_order (t : table) (now : Z) :
  reachable t ->
  callbacks_present now t ->
  int32_t (TIMER_DIFF_32 now (last_deferred_exec_check t)) > 0 ->
  exists (t' : table) (tr : list invocation),
    deferred_exec_task now t = Ok (t', tr) /\
    StronglySorted (fun a b => (inv_slot a < inv_slot b)%nat) tr /\
    forall c : invocation,
      c ∈ tr <->
      exists e : deferred_executor_t,
        basic_executors t !! inv_slot c = Some e /\
        occupied t (inv_slot c) = true /\ is_due now e = true /\
        c = mk_invocation (inv_slot c) (trigger_time e) (cb_arg e).
Proof.
  intros Hreach Hpresent Hgo. pose proof (reachable_ok t Hreach) as Hok.
  destruct (deferred_exec_task_total now t Hok Hpresent) as (t' & tr & Hrun).
  exists t', tr. split; [assumption |].
  assert (Htr : tr = due_calls now t).
  { unfold deferred_exec_task, deferred_exec_advanced_task in Hrun.
    destruct (Z.gtb_spec (int32_t (TIMER_DIFF_32 now (last_deferred_exec_check t))) 0)
      as [_ | Hle]; [| lia].
    pose proof (free_bits_8 t Hok) as Hfree.
    apply (task_loop_trace now (occupied t) free_executors_bits
             (basic_executors_free (set_last_check now t)) 0%nat
             (set_last_check now t) t' tr Hfree Hfree (fun k => eq_refl) Hrun). }
  rewrite Htr. unfold due_calls. split; [apply due_calls_from_sorted |].
  intros c. rewrite due_calls_from_elem. cbn [Nat.add]. split.
  - intros (k & e & Hk & Hocc & Hdue & ->). exists e. cbn [inv_slot].
    repeat split; assumption.
  - intros (e & He & Hocc & Hdue & Hc). exists (inv_slot c), e.
    repeat split; assumption.
Qed.

Lemma X2_pass_calls_in_index_order_witness :
  exists (t' : table) (tr : list invocation),
    deferred_exec_task 12 booked_three = Ok (t', tr) /\
    StronglySorted (fun a b => (inv_slot a < inv_slot b)%nat) tr /\
    forall c : invocation,
      c ∈ tr <->
      exists e : deferred_executor_t,
        basic_executors booked_three !! inv_slot c = Some e /\
        occupied booked_three (inv_slot c) = true /\ is_due 12 e = true /\
        c = mk_invocation (inv_slot c) (trigger_time e) (cb_arg e).
Proof.
  apply (X2_pass_calls_in_index_order booked_three 12).
  - apply booked_three_reachable.
  - apply booked_three_callbacks_present.
  - vm_compute. reflexivity.
Defined.

(** X3: a pass that is not throttled on a reachable table none of whose
    occupied entries is due makes no call and changes nothing but the
    last-check time; it completes even if some entry has no callback. *)
Theorem X3_pass_with_nothing_due (t : table) (now : Z) :
  reachable t ->
  int32_t (TIMER_DIFF_32 now (last_deferred_exec_check t)) > 0 ->
  (forall (i : nat) (e : deferred_executor_t),
      occupied t i = true -> basic_executors t !! i = Some e -> is_due now e = false) ->
  deferred_exec_task now t = Ok (set_last_check now t, []).
Proof.
  intros Hreach Hgo Hidle. pose proof (reachable_ok t Hreach) as Hok.
  unfold deferred_exec_task, deferred_exec_advanced_task.
  destruct (Z.gtb_spec (int32_t (TIMER_DIFF_32 now (last_deferred_exec_check t))) 0)
    as [_ | Hle]; [| lia].
  pose proof (free_bits_8 t Hok) as Hfree.
  apply task_loop_idle; try exact Hfree.
  intros k Hbit. cbn [Nat.add].
  change (occupied t k = true) in Hbit.
  pose proof (occupied_lt_max t k Hok Hbit) as Hk.
  destruct (entry_at_ok t k (ok_length t Hok) Hk) as (e & He & _).
  exists e. split; [exact He |]. apply (Hidle k e Hbit He).
Qed.

Lemma X3_pass_with_nothing_due_witness :
  deferred_exec_task 9 cancelled_once = Ok (set_last_check 9 cancelled_once, []).
Proof.
  apply (X3_pass_with_nothing_due cancelled_once 9).
  - apply cancelled_once_reachable.
  - vm_compute. reflexivity.
  - intros i e Hocc He.
    destruct i as [| [| [| [| i]]]]; vm_compute in He, Hocc; try discriminate.
    injection He as <-. reflexivity.
Defined.

(** X4: a completed pass leaves alone every entry that is not occupied or
    not due: the entry and its bit are as before and no call is made for
    that slot. *)
Theorem X4_pass_leaves_other_entries (t t' : table) (now : Z) (tr : list invocation)
    (j : nat) (e : deferred_executor_t) :
  reachable t ->
  deferred_exec_task now t = Ok (t', tr) ->
  basic_executors t !! j = Some e ->
  occupied t j && is_due now e = false ->
  calls_of j tr = [] /\ basic_executors t' !! j = Some e /\ occupied t' j = occupied t j.
Proof.
  intros Hreach Hrun He Hidle. pose proof (reachable_ok t Hreach) as Hok.
  destruct (Z_gt_le_dec (int32_t (TIMER_DIFF_32 now (last_deferred_exec_check t))) 0)
    as [Hgo | Hthr].
  - apply (proj2 (deferred_exec_task_slot now t t' tr j e Hok Hgo Hrun He) Hidle).
  - unfold deferred_exec_task, deferred_exec_advanced_task in Hrun.
    destruct (Z.gtb_spec (int32_t (TIMER_DIFF_32 now (last_deferred_exec_check t))) 0);
      [lia |]. injection Hrun as <- <-. repeat split. assumption.
Qed.

Lemma X4_pass_leaves_other_entries_witness :
  calls_of 1 [mk_invocation 0 10 1; mk_invocation 2 5 3] = [] /\
  basic_executors (table_after (deferred_exec_task 12 booked_three)) !! 1%nat
    = Some (mk_executor 1 20 (Some one_shot) 2) /\
  occupied (table_after (deferred_exec_task 12 booked_three)) 1 = occupied booked_three 1.
Proof.
  apply (X4_pass_leaves_other_entries booked_three
           (table_after (deferred_exec_task 12 booked_three)) 12
           [mk_invocation 0 10 1; mk_invocation 2 5 3] 1
           (mk_executor 1 20 (Some one_shot) 2)).
  - apply booked_three_reachable.
  - reflexivity.
  - reflexivity.
  - reflexivity.
Defined.

(** ** Tokens and the bitmap *)

Lemma next_token_fresh (i : nat) (tok : Z) :
  0 <= Z.of_nat i < MAX_DEFERRED_EXECUTORS ->
  0 <= tok < Z.of_nat i * band_size + band_size - 1 ->
  next_token i tok <> tok.
Proof.
  unfold next_token, deferred_token, INVALID_DEFERRED_TOKEN.
  change band_size with 64. change MAX_TOKEN_VALUE with 256.
  change MAX_DEFERRED_EXECUTORS with 4.
  intros Hi Htok.
  rewrite (Z.mod_small (tok + 1)) by lia.
  rewrite (Z.mod_small (Z.of_nat i * 64)) by lia.
  destruct (Z.geb_spec (tok + 1) (Z.of_nat i * 64 + 64 - 1)) as [Hge | Hlt]; [| lia].
  destruct (Z.eqb_spec (Z.of_nat i * 64) 0) as [Hz | Hnz].
  - change ((0 + 1) mod 256) with 1. lia.
  - lia.
Qed.

Lemma lookup_same_token (l l' : list deferred_executor_t) (j : nat)
    (e' : deferred_executor_t) :
  token <$> (l' !! j) = token <$> (l !! j) -> l' !! j = Some e' ->
  exists e, l !! j = Some e /\ token e = token e'.
Proof.
  intros Htok He'. rewrite He' in Htok.
  destruct (l !! j) as [e |]; [| discriminate].
  exists e. split; [reflexivity |]. injection Htok as ->. reflexivity.
Qed.

(** X5: in every reachable table an occupied slot is a slot of the array
    and its token is not [INVALID_DEFERRED_TOKEN]. *)
Theorem X5_live_token_is_valid (t : table) (i : nat) :
  reachable t ->
  occupied t i = true ->
  exists e : deferred_executor_t,
    basic_executors t !! i = Some e /\ token e <> INVALID_DEFERRED_TOKEN.
Proof.
  intros Hreach.
  assert (Hinv : forall e, occupied t i = true -> basic_executors t !! i = Some e ->
                           token e <> INVALID_DEFERRED_TOKEN).
  { induction Hreach as [| t t' now delay_ms arg tok cb Hreach IH Hrun
                         | t t' now tok delay_ms b Hreach IH Htok Hrun
                         | t t' tok b Hreach IH Htok Hrun
                         | t t' now tr Hreach IH Hrun]; intros e' Hocc He'.
    - unfold occupied, init_table in Hocc. cbn [basic_executors_free] in Hocc.
      rewrite Z.testbit_0_l in Hocc. discriminate.
    - pose proof (reachable_ok t Hreach) as Hok.
      destruct (defer_exec_cases now delay_ms arg cb t Hok)
        as [(_ & Heq) | (k & e & _ & _ & Hk & _ & _ & He & Heq)];
        rewrite Heq in Hrun; injection Hrun as _ <-; [apply IH; assumption |].
      cbn [basic_executors] in He'. apply list_lookup_insert_Some in He'.
      destruct He' as [(<- & <- & _) | (Hne & He')].
      + cbn [claimed_entry token].
        pose proof (next_token_range k (token e) Hk (ok_token t Hok k e He)).
        unfold INVALID_DEFERRED_TOKEN. lia.
      + apply IH; [| assumption]. unfold occupied in *.
        cbn [basic_executors_free] in Hocc.
        rewrite Z.setbit_neq in Hocc by lia. assumption.
    - destruct (extend_tokens _ _ _ _ _ _ Hrun) as (Hfree & _ & Hsame).
      destruct (lookup_same_token _ _ i e' (proj1 (Hsame i)) He') as (e & He & <-).
      apply IH; [| assumption]. unfold occupied in *. rewrite <- Hfree. assumption.
    - destruct (cancel_tokens _ _ _ _ Hrun) as (Hfree & _ & Hsame).
      destruct (lookup_same_token _ _ i e' (proj1 (Hsame i)) He') as (e & He & <-).
      apply IH; [| assumption]. unfold occupied in *. rewrite <- Hfree. assumption.
    - pose proof (reachable_ok t Hreach) as Hok.
      destruct (lookup_same_token _ _ i e'
                  (deferred_exec_task_tokens now t t' tr i Hok Hrun) He') as (e & He & <-).
      apply IH; [| assumption].
      apply (deferred_exec_task_bits now t t' tr i Hok Hrun Hocc). }
  intros Hocc. pose proof (reachable_ok t Hreach) as Hok.
  destruct (entry_at_ok t i (ok_length t Hok) (occupied_lt_max t i Hok Hocc))
    as (e & He & _).
  exists e. split; [assumption |]. apply Hinv; assumption.
Qed.

Lemma X5_live_token_is_valid_witness :
  exists e : deferred_executor_t,
    basic_executors booked_three !! 2%nat = Some e /\ token e <> INVALID_DEFERRED_TOKEN.
Proof.
  apply (X5_live_token_is_valid booked_three 2).
  - apply booked_three_reachable.
  - reflexivity.
Defined.

(** X6: a successful [defer_exec] on a reachable table claims a slot that
    was free, gives it a token different from the one the slot held
    before, and leaves every other slot, every other bit of the bitmap and
    the last-check time as they were: no live booking is overwritten. *)
Theorem X6_defer_exec_touches_one_slot (t t' : table) (now delay_ms arg tok : Z)
    (cb : option deferred_exec_callback) :
  reachable t ->
  defer_exec now delay_ms cb arg t = Ok (tok, t') ->
  tok <> INVALID_DEFERRED_TOKEN ->
  exists (i : nat) (e : deferred_executor_t),
    basic_executors t !! i = Some e /\
    occupied t i = false /\
    tok <> token e /\
    last_deferred_exec_check t' = last_deferred_exec_check t /\
    forall j : nat, j <> i ->
      basic_executors t' !! j = basic_executors t !! j /\
      occupied t' j = occupied t j.
Proof.
  intros Hreach Hrun Hvalid. pose proof (reachable_ok t Hreach) as Hok.
  destruct (defer_exec_cases now delay_ms arg cb t Hok)
    as [(_ & Heq) | (i & e & _ & _ & Hi & Hfree & _ & He & Heq)];
    rewrite Heq in Hrun; injection Hrun as <- <-; [contradiction |].
  exists i, e. split; [assumption |]. split; [assumption |].
  split; [apply next_token_fresh; [assumption | apply (ok_token t Hok i e He)] |].
  split; [reflexivity |]. intros j Hj. cbn [basic_executors]. split.
  - apply list_lookup_insert_ne. congruence.
  - unfold occupied. cbn [basic_executors_free]. apply Z.setbit_neq; lia.
Qed.

Lemma X6_defer_exec_touches_one_slot_witness :
  exists (i : nat) (e : deferred_executor_t),
    basic_executors booked_once !! i = Some e /\
    occupied booked_once i = false /\
    1 <> token e /\
    last_deferred_exec_check booked_twice = last_deferred_exec_check booked_once /\
    forall j : nat, j <> i ->
      basic_executors booked_twice !! j = basic_executors booked_once !! j /\
      occupied booked_twice j = occupied booked_once j.
Proof.
  apply (X6_defer_exec_touches_one_slot booked_once booked_twice 0 10 7 1 (Some one_shot)).
  - apply booked_once_reachable.
  - reflexivity.
  - discriminate.
Defined.

(** X7: only [defer_exec] writes a token or sets a bit.  On a reachable
    table, [extend_deferred_exec] keeps the bitmap and every token,
    callback and argument; [cancel_deferred_exec] keeps the bitmap and
    every token and trigger time; a completed pass keeps every token and
    sets no bit. *)
Theorem X7_tokens_written_by_defer_only (t : table) :
  reachable t ->
  (forall (now tok delay_ms : Z) (b : bool) (t' : table),
      extend_deferred_exec now tok delay_ms t = Ok (b, t') ->
      basic_executors_free t' = basic_executors_free t /\
      forall j : nat,
        token <$> (basic_executors t' !! j) = token <$> (basic_executors t !! j) /\
        callback <$> (basic_executors t' !! j) = callback <$> (basic_executors t !! j) /\
        cb_arg <$> (basic_executors t' !! j) = cb_arg <$> (basic_executors t !! j)) /\
  (forall (tok : Z) (b : bool) (t' : table),
      cancel_deferred_exec tok t = Ok (b, t') ->
      basic_executors_free t' = basic_executors_free t /\
      forall j : nat,
        token <$> (basic_executors t' !! j) = token <$> (basic_executors t !! j) /\
        trigger_time <$> (basic_executors t' !! j)
          = trigger_time <$> (basic_executors t !! j)) /\
  (forall (now : Z) (t' : table) (tr : list invocation),
      deferred_exec_task now t = Ok (t', tr) ->
      forall j : nat,
        token <$> (basic_executors t' !! j) = token <$> (basic_executors t !! j) /\
        (occupied t' j = true -> occupied t j = true)).
Proof.
  intros Hreach. pose proof (reachable_ok t Hreach) as Hok. split; [| split].
  - intros now tok delay_ms b t' Hrun.
    destruct (extend_tokens _ _ _ _ _ _ Hrun) as (Hfree & _ & Hsame).
    split; assumption.
  - intros tok b t' Hrun.
    destruct (cancel_tokens _ _ _ _ Hrun) as (Hfree & _ & Hsame).
    split; [assumption |]. intros j. destruct (Hsame j) as (H1 & H2 & _).
    split; assumption.
  - intros now t' tr Hrun j. split.
    + apply (deferred_exec_task_tokens now t t' tr j Hok Hrun).
    + apply (deferred_exec_task_bits now t t' tr j Hok Hrun).
Qed.

Lemma X7_tokens_written_by_defer_only_witness :
  basic_executors_free cancelled_once = basic_executors_free booked_once /\
  token <$> (basic_executors cancelled_once !! 0%nat)
    = token <$> (basic_executors booked_once !! 0%nat) /\
  token <$> (basic_executors fired_once !! 0%nat)
    = token <$> (basic_executors booked_once !! 0%nat).
Proof.
  destruct (X7_tokens_written_by_defer_only booked_once booked_once_reachable)
    as (_ & Hcancel & Htask).
  destruct (Hcancel 1 true cancelled_once eq_refl) as [Hfree Hsame].
  split; [exact Hfree |]. split; [apply (Hsame 0%nat) |].
  apply (Htask 10 fired_once [mk_invocation 0 10 7] eq_refl 0%nat).
Defined.

(** ** Properties kept along every run *)

Lemma evolves_reachable (t t' : table) : reachable t -> evolves t t' -> reachable t'.
Proof.
  intros Hreach Hrun. induction Hrun; [assumption | | | |].
  - eapply reach_defer; eassumption.
  - eapply reach_extend; eassumption.
  - eapply reach_cancel; eassumption.
  - eapply reach_task; eassumption.
Qed.

(** The entry of slot [i] after a call of [defer_exec]: the slot was free
    and has been claimed, or the call has left it alone. *)
Lemma defer_exec_slot (now delay_ms arg tok : Z) (cb : option deferred_exec_callback)
    (t t' : table) (i : nat) (e : deferred_executor_t) :
  table_ok t -> defer_exec now delay_ms cb arg t = Ok (tok, t') ->
  basic_executors t !! i = Some e ->
  (occupied t i = false /\ occupied t' i = true /\
   basic_executors t' !! i = Some (claimed_entry now delay_ms cb arg i e))
  \/ (basic_executors t' !! i = Some e /\ occupied t' i = occupied t i).
Proof.
  intros Hok Hrun He.
  destruct (defer_exec_cases now delay_ms arg cb t Hok)
    as [(_ & Heq) | (k & e0 & _ & _ & Hk & Hfree & _ & He0 & Heq)];
    rewrite Heq in Hrun; injection Hrun as _ <-.
  { right. split; [assumption | reflexivity]. }
  destruct (Nat.eq_dec k i) as [-> | Hne].
  - left. rewrite He in He0. injection He0 as <-.
    split; [assumption |]. split.
    + unfold occupied. cbn [basic_executors_free]. apply Z.setbit_eq. lia.
    + cbn [basic_executors]. apply list_lookup_insert_eq.
      apply lookup_lt_Some in He. exact He.
  - right. cbn [basic_executors]. split.
    + rewrite list_lookup_insert_ne by assumption. assumption.
    + unfold occupied. cbn [basic_executors_free]. apply Z.setbit_neq; lia.
Qed.

(** X8: a slot that is occupied and has no callback (as
    [cancel_deferred_exec] leaves it) is never given back: along every run
    of API calls that does not fault, it stays occupied without a
    callback, so no pass releases it and no [defer_exec] claims it. *)
Theorem X8_cancelled_slot_is_never_released (t t' : table) (i : nat)
    (e : deferred_executor_t) :
  reachable t ->
  occupied t i = true ->
  basic_executors t !! i = Some e ->
  callback e = None ->
  evolves t t' ->
  occupied t' i = true /\
  exists e' : deferred_executor_t,
    basic_executors t' !! i = Some e' /\ callback e' = None /\ token e' = token e.
Proof.
  intros Hreach Hocc He Hcb Hrun.
  induction Hrun as [| t1 t2 now delay_ms arg tok cb Hrun IH Hstep
                     | t1 t2 now tok delay_ms b Hrun IH Htok Hstep
                     | t1 t2 tok b Hrun IH Htok Hstep
                     | t1 t2 now tr Hrun IH Hstep].
  - split; [assumption |]. exists e. repeat split; assumption.
  - destruct IH as (Hocc1 & e1 & He1 & Hcb1 & Htok1).
    pose proof (reachable_ok t1 (evolves_reachable t t1 Hreach Hrun)) as Hok1.
    destruct (defer_exec_slot now delay_ms arg tok cb t1 t2 i e1 Hok1 Hstep He1)
      as [(Hfree & _) | (He2 & Hocc2)]; [congruence |].
    split; [congruence |]. exists e1. repeat split; assumption.
  - destruct IH as (Hocc1 & e1 & He1 & Hcb1 & Htok1).
    destruct (extend_tokens _ _ _ _ _ _ Hstep) as (Hfree & _ & Hsame).
    split; [unfold occupied in *; rewrite Hfree; assumption |].
    destruct (Hsame i) as (Ht & Hc & _). rewrite He1 in Ht, Hc.
    destruct (basic_executors t2 !! i) as [e2 |]; [| discriminate].
    exists e2. injection Ht as Ht. injection Hc as Hc.
    split; [reflexivity |]. split; congruence.
  - destruct IH as (Hocc1 & e1 & He1 & Hcb1 & Htok1).
    destruct (cancel_tokens _ _ _ _ Hstep) as (Hfree & _ & Hsame).
    split; [unfold occupied in *; rewrite Hfree; assumption |].
    destruct (Hsame i) as (Ht & _ & _ & Hnone).
    destruct (Hnone e1 He1 Hcb1) as (e2 & He2 & Hcb2).
    exists e2. rewrite He1, He2 in Ht. injection Ht as Ht.
    split; [assumption |]. split; congruence.
  - destruct IH as (Hocc1 & e1 & He1 & Hcb1 & Htok1).
    pose proof (reachable_ok t1 (evolves_reachable t t1 Hreach Hrun)) as Hok1.
    destruct (Z_gt_le_dec (int32_t (TIMER_DIFF_32 now (last_deferred_exec_check t1))) 0)
      as [Hgo | Hthr].
    + destruct (deferred_exec_task_slot now t1 t2 tr i e1 Hok1 Hgo Hstep He1)
        as [Hact Hskip].
      destruct (occupied t1 i && is_due now e1) eqn:Hcase.
      * destruct (Hact eq_refl) as (fn & Hfn & _). congruence.
      * destruct (Hskip eq_refl) as (_ & He2 & Hocc2).
        split; [congruence |]. exists e1. repeat split; assumption.
    + unfold deferred_exec_task, deferred_exec_advanced_task in Hstep.
      destruct (Z.gtb_spec (int32_t (TIMER_DIFF_32 now (last_deferred_exec_check t1))) 0);
        [lia |]. injection Hstep as <- _.
      split; [assumption |]. exists e1. repeat split; assumption.
Qed.

Lemma X8_cancelled_slot_is_never_released_witness :
  occupied (table_after (deferred_exec_task 9 cancelled_once)) 0 = true /\
  exists e' : deferred_executor_t,
    basic_executors (table_after (deferred_exec_task 9 cancelled_once)) !! 0%nat = Some e' /\
    callback e' = None /\ token e' = token (mk_executor 1 10 None NULL).
Proof.
  apply (X8_cancelled_slot_is_never_released cancelled_once
           (table_after (deferred_exec_task 9 cancelled_once)) 0
           (mk_executor 1 10 None NULL)).
  - apply cancelled_once_reachable.
  - reflexivity.
  - reflexivity.
  - reflexivity.
  - apply (evolves_task cancelled_once cancelled_once _ 9 []);
      [apply evolves_refl | reflexivity].
Defined.

Lemma next_token_in_band (i : nat) (tok : Z) :
  0 <= Z.of_nat i < MAX_DEFERRED_EXECUTORS ->
  0 <= tok < Z.of_nat i * band_size + band_size - 1 ->
  in_band i tok -> in_band i (next_token i tok).
Proof.
  unfold in_band, next_token, deferred_token, INVALID_DEFERRED_TOKEN.
  change band_size with 64. change MAX_TOKEN_VALUE with 256.
  change MAX_DEFERRED_EXECUTORS with 4.
  intros Hi Htok Hband.
  rewrite (Z.mod_small (tok + 1)) by lia.
  rewrite (Z.mod_small (Z.of_nat i * 64)) by lia.
  destruct (Z.geb_spec (tok + 1) (Z.of_nat i * 64 + 64 - 1)) as [Hge | Hlt]; [| lia].
  destruct (Z.eqb_spec (Z.of_nat i * 64) 0) as [Hz | Hnz].
  - change ((0 + 1) mod 256) with 1. lia.
  - lia.
Qed.

Lemma in_band_index (i : nat) (tok : Z) :
  0 <= Z.of_nat i < MAX_DEFERRED_EXECUTORS -> in_band i tok -> token_index tok = i.
Proof.
  unfold in_band, token_index, uint8_t. change band_size with 64.
  change MAX_DEFERRED_EXECUTORS with 4. intros Hi Hband.
  assert (Hq : tok / 64 = Z.of_nat i).
  { symmetry. apply Z.div_unique with (tok - Z.of_nat i * 64); lia. }
  rewrite Hq, Z.mod_small by lia. lia.
Qed.

(** X9: once the token of a slot lies in the slot's band it stays there
    along every run of API calls that does not fault, and the index
    recovered from it by [extend_deferred_exec] and
    [cancel_deferred_exec] is the index of that slot. *)
Theorem X9_token_stays_in_band (t t' : table) (i : nat) (e : deferred_executor_t) :
  reachable t ->
  basic_executors t !! i = Some e ->
  in_band i (token e) ->
  evolves t t' ->
  exists e' : deferred_executor_t,
    basic_executors t' !! i = Some e' /\ in_band i (token e') /\
    token_index (token e') = i.
Proof.
  intros Hreach He Hband Hrun.
  assert (Hkeep : exists e', basic_executors t' !! i = Some e' /\ in_band i (token e')).
  { induction Hrun as [| t1 t2 now delay_ms arg tok cb Hrun IH Hstep
                       | t1 t2 now tok delay_ms b Hrun IH Htok Hstep
                       | t1 t2 tok b Hrun IH Htok Hstep
                       | t1 t2 now tr Hrun IH Hstep].
    - exists e. split; assumption.
    - destruct IH as (e1 & He1 & Hband1).
      pose proof (reachable_ok t1 (evolves_reachable t t1 Hreach Hrun)) as Hok1.
      destruct (defer_exec_slot now delay_ms arg tok cb t1 t2 i e1 Hok1 Hstep He1)
        as [(_ & _ & He2) | (He2 & _)].
      + eexists. split; [exact He2 |]. cbn [claimed_entry token].
        apply next_token_in_band; [| apply (ok_token t1 Hok1 i e1 He1) | assumption].
        apply (index_lt_max _ _ _ (ok_length t1 Hok1) He1).
      + exists e1. split; assumption.
    - destruct IH as (e1 & He1 & Hband1).
      destruct (extend_tokens _ _ _ _ _ _ Hstep) as (_ & _ & Hsame).
      destruct (Hsame i) as (Ht & _). rewrite He1 in Ht.
      destruct (basic_executors t2 !! i) as [e2 |]; [| discriminate].
      injection Ht as Ht. exists e2. split; [reflexivity |]. rewrite Ht. assumption.
    - destruct IH as (e1 & He1 & Hband1).
      destruct (cancel_tokens _ _ _ _ Hstep) as (_ & _ & Hsame).
      destruct (Hsame i) as (Ht & _). rewrite He1 in Ht.
      destruct (basic_executors t2 !! i) as [e2 |]; [| discriminate].
      injection Ht as Ht. exists e2. split; [reflexivity |]. rewrite Ht. assumption.
    - destruct IH as (e1 & He1 & Hband1).
      pose proof (reachable_ok t1 (evolves_reachable t t1 Hreach Hrun)) as Hok1.
      pose proof (deferred_exec_task_tokens now t1 t2 tr i Hok1 Hstep) as Ht.
      rewrite He1 in Ht.
      destruct (basic_executors t2 !! i) as [e2 |]; [| discriminate].
      injection Ht as Ht. exists e2. split; [reflexivity |]. rewrite Ht. assumption. }
  destruct Hkeep as (e' & He' & Hband').
  exists e'. split; [assumption |]. split; [assumption |].
  apply in_band_index; [| assumption].
  pose proof (reachable_ok t' (evolves_reachable t t' Hreach Hrun)) as Hok'.
  apply (index_lt_max _ _ _ (ok_length t' Hok') He').
Qed.

Lemma X9_token_stays_in_band_witness :
  exists e' : deferred_executor_t,
    basic_executors booked_three !! 0%nat = Some e' /\ in_band 0 (token e') /\
    token_index (token e') = 0%nat.
Proof.
  apply (X9_token_stays_in_band init_table booked_three 0 zero_executor).
  - apply reach_init.
  - reflexivity.
  - unfold in_band, band_size, MAX_TOKEN_VALUE, MAX_DEFERRED_EXECUTORS.
    change (256 / 4) with 64. cbn. lia.
  - apply (evolves_defer init_table
             (table_of (defer_exec 0 20 (Some one_shot) 2
                (table_of (defer_exec 0 10 (Some one_shot) 1 init_table))))
             booked_three 0 5 3 1 (Some one_shot)); [| reflexivity].
    apply (evolves_defer init_table
             (table_of (defer_exec 0 10 (Some one_shot) 1 init_table))
             _ 0 20 2 1 (Some one_shot)); [| reflexivity].
    apply (evolves_defer init_table init_table _ 0 10 1 1 (Some one_shot));
      [apply evolves_refl | reflexivity].
Defined.

(** ** Due times across the wrap of the clock *)

Lemma timer_diff_int32 (a b : Z) :
  int32_t (TIMER_DIFF_32 (uint32_t a) (uint32_t b)) = int32_t (a - b).
Proof.
  unfold int32_t, TIMER_DIFF_32, uint32_t.
  rewrite Zminus_mod_idemp_l, Zminus_mod_idemp_r, Z.mod_mod by lia. reflexivity.
Qed.

Lemma int32_t_small (x : Z) : - 2 ^ 31 <= x < 2 ^ 31 -> int32_t x = x.
Proof.
  intros Hx. unfold int32_t. destruct (Z_lt_le_dec x 0) as [Hneg | Hpos].
  - replace (x mod 2 ^ 32) with (x + 2 ^ 32).
    + destruct (Z.ltb_spec (x + 2 ^ 32) (2 ^ 31)); lia.
    + apply Z.mod_unique with (-1); lia.
  - rewrite Z.mod_small by lia. destruct (Z.ltb_spec x (2 ^ 31)); lia.
Qed.

Lemma int32_t_high (x : Z) : 2 ^ 31 <= x < 2 ^ 32 -> int32_t x = x - 2 ^ 32.
Proof.
  intros Hx. unfold int32_t. rewrite Z.mod_small by lia.
  destruct (Z.ltb_spec x (2 ^ 31)); lia.
Qed.

(** An entry armed at [now] for [delay_ms] milliseconds, seen [k]
    milliseconds later. *)
Lemma is_due_elapsed (now delay_ms k : Z) (e : deferred_executor_t) :
  token e <> INVALID_DEFERRED_TOKEN ->
  trigger_time e = uint32_t (now + delay_ms) ->
  - 2 ^ 31 <= delay_ms - k < 2 ^ 31 ->
  is_due (uint32_t (now + k)) e = (delay_ms <=? k).
Proof.
  intros Hvalid Htrig Hrange. unfold is_due.
  rewrite (proj2 (Z.eqb_neq _ _) Hvalid). cbn [negb andb].
  rewrite Htrig, timer_diff_int32.
  replace (now + delay_ms - (now + k)) with (delay_ms - k) by lia.
  rewrite int32_t_small by assumption.
  destruct (Z.leb_spec (delay_ms - k) 0), (Z.leb_spec delay_ms k); lia || reflexivity.
Qed.







(** X12: after a successful [extend_deferred_exec] at [now] with a delay
    below [2^31] ms, the entry of the token is due at the clock reading
    taken [k] ms later exactly when [delay_ms <= k]: the earlier trigger
    time no longer counts. *)
Theorem X12_extended_booking_due_after_delay (t t' : table) (now tok delay_ms : Z) :
  reachable t ->
  0 <= tok < MAX_TOKEN_VALUE ->
  0 < delay_ms < 2 ^ 31 ->
  extend_deferred_exec now tok delay_ms t = Ok (true, t') ->
  exists e' : deferred_executor_t,
    basic_executors t' !! token_index tok = Some e' /\ token e' = tok /\
    occupied t' (token_index tok) = occupied t (token_index tok) /\
    forall k : Z, 0 <= k < 2 ^ 31 ->
                  is_due (uint32_t (now + k)) e' = (delay_ms <=? k).
Proof.
  intros Hreach Htok Hdelay Hrun. pose proof (reachable_ok t Hreach) as Hok.
  destruct (token_index_entry tok t Hok Htok) as (e & He).
  rewrite (extend_eq now tok delay_ms t e He) in Hrun.
  destruct (Z.eqb_spec delay_ms 0) as [Hz | _]; [lia |].
  destruct (Z.eqb_spec tok INVALID_DEFERRED_TOKEN) as [Hinv | Hvalid];
    [discriminate |].
  destruct (Z.eqb_spec (token e) tok) as [Hmatch | Hne]; [| discriminate].
  cbn [orb negb] in Hrun. injection Hrun as <-.
  eexists. split; [| split; [| split]].
  - cbn [set_entry basic_executors]. apply list_lookup_insert_eq.
    apply lookup_lt_Some in He. exact He.
  - exact Hmatch.
  - reflexivity.
  - intros k Hk. apply is_due_elapsed; [cbn; congruence | reflexivity | lia].
Qed.

Lemma X12_extended_booking_due_after_delay_witness :
  exists e' : deferred_executor_t,
    basic_executors (table_of (extend_deferred_exec 8 1 30 booked_once)) !! token_index 1
      = Some e' /\
    token e' = 1 /\
    occupied (table_of (extend_deferred_exec 8 1 30 booked_once)) (token_index 1)
      = occupied booked_once (token_index 1) /\
    forall k : Z, 0 <= k < 2 ^ 31 -> is_due (uint32_t (8 + k)) e' = (30 <=? k).
Proof.
  apply (X12_extended_booking_due_after_delay booked_once _ 8 1 30).
  - apply booked_once_reachable.
  - unfold MAX_TOKEN_VALUE. lia.
  - lia.
  - reflexivity.
Defined.

(** X13: the throttle of the pass, in terms of the time elapsed since the
    last pass that ran.  When the 32-bit clock reads [k] ms more than the
    last-check time, the pass is skipped, with the table unchanged, if
    [k = 0] or [k >= 2^31]; if [0 < k < 2^31] it runs and, when it
    completes, records the new clock reading as last-check time. *)
Theorem X13_pass_throttle_window (t : table) (last k : Z) :
  reachable t ->
  last_deferred_exec_check t = uint32_t last ->
  0 <= k < 2 ^ 32 ->
  (k = 0 \/ 2 ^ 31 <= k ->
   deferred_exec_task (uint32_t (last + k)) t = Ok (t, [])) /\
  (0 < k < 2 ^ 31 ->
   forall (t' : table) (tr : list invocation),
     deferred_exec_task (uint32_t (last + k)) t = Ok (t', tr) ->
     last_deferred_exec_check t' = uint32_t (last + k) /\
     tr = due_calls (uint32_t (last + k)) t).
Proof.
  intros Hreach Hlast Hk. pose proof (reachable_ok t Hreach) as Hok.
  assert (Hdiff : int32_t (TIMER_DIFF_32 (uint32_t (last + k)) (last_deferred_exec_check t))
                  = int32_t k).
  { rewrite Hlast, timer_diff_int32. f_equal. lia. }
  unfold deferred_exec_task, deferred_exec_advanced_task. rewrite Hdiff. split.
  - intros Hskip.
    assert (Hle : int32_t k <= 0).
    { destruct Hskip as [-> | Hhigh]; [vm_compute; discriminate |].
      rewrite int32_t_high by lia. lia. }
    destruct (Z.gtb_spec (int32_t k) 0); [lia | reflexivity].
  - intros Hrun t' tr Hpass.
    rewrite int32_t_small in Hpass by lia.
    destruct (Z.gtb_spec k 0); [| lia].
    pose proof (free_bits_8 t Hok) as Hfree. split.
    + apply task_loop_frame in Hpass; [| exact Hfree].
      destruct Hpass as [(Hl & _) _]. rewrite Hl. reflexivity.
    + apply (task_loop_trace (uint32_t (last + k)) (occupied t) free_executors_bits
               (basic_executors_free (set_last_check (uint32_t (last + k)) t)) 0%nat
               (set_last_check (uint32_t (last + k)) t) t' tr Hfree Hfree
               (fun k => eq_refl) Hpass).
Qed.

Lemma X13_pass_throttle_window_witness :
  deferred_exec_task (uint32_t (0 + 2147483648)) booked_once = Ok (booked_once, []) /\
  (forall (t' : table) (tr : list invocation),
     deferred_exec_task (uint32_t (0 + 10)) booked_once = Ok (t', tr) ->
     last_deferred_exec_check t' = uint32_t (0 + 10) /\
     tr = due_calls (uint32_t (0 + 10)) booked_once).
Proof.
  split.
  - apply (proj1 (X13_pass_throttle_window booked_once 0 2147483648
                    booked_once_reachable eq_refl ltac:(lia))).
    right. lia.
  - apply (proj2 (X13_pass_throttle_window booked_once 0 10
                    booked_once_reachable eq_refl ltac:(lia))).
    lia.
Defined.

(** ** A booking and its token *)

Lemma token_index_in_band (i : nat) (tok : Z) :
  0 <= Z.of_nat i < MAX_DEFERRED_EXECUTORS -> 0 <= tok < MAX_TOKEN_VALUE ->
  token_index tok = i -> in_band i tok.
Proof.
  intros Hi Htok Hidx. destruct (token_index_range tok Htok) as [Hq _].
  rewrite Hidx in Hq. unfold in_band. revert Hq. change band_size with 64. intros Hq.
  pose proof (Z.div_mod tok 64 ltac:(lia)) as Hdm.
  pose proof (Z.mod_pos_bound tok 64 ltac:(lia)) as Hm. lia.
Qed.

(** The slot a successful [defer_exec] claims: it was free before the
    call, is occupied after it, and holds the token returned together
    with the trigger time, callback and argument of the call. *)
Lemma defer_exec_claimed_slot (now delay_ms arg tok : Z)
    (cb : option deferred_exec_callback) (t t' : table) :
  table_ok t -> defer_exec now delay_ms cb arg t = Ok (tok, t') ->
  tok <> INVALID_DEFERRED_TOKEN ->
  exists (i : nat) (e' : deferred_executor_t),
    occupied t i = false /\
    basic_executors t' !! i = Some e' /\ occupied t' i = true /\
    token e' = tok /\ trigger_time e' = uint32_t (now + delay_ms) /\
    callback e' = cb /\ cb_arg e' = arg.
Proof.
  intros Hok Hrun Hvalid.
  destruct (defer_exec_cases now delay_ms arg cb t Hok)
    as [(_ & Heq) | (i & e & _ & _ & Hi & Hfree & _ & He & Heq)];
    rewrite Heq in Hrun; injection Hrun as <- <-; [contradiction |].
  exists i. eexists. split; [exact Hfree |]. split.
  - cbn [basic_executors]. apply list_lookup_insert_eq.
    apply lookup_lt_Some in He. exact He.
  - split; [| repeat split].
    unfold occupied. cbn [basic_executors_free]. apply Z.setbit_eq. lia.
Qed.

(** X14: the round trip from [defer_exec] to [cancel_deferred_exec].  A
    successful [defer_exec] claims one slot [i]: the slot that was free
    before the call and is occupied after it, holding the token returned
    and the trigger time, callback and argument of the call.  If the token
    lies in band [i], cancelling it returns true and clears the callback
    and argument of slot [i], which stays occupied.  If it lies outside
    band [i], the index recovered from it is that of another slot, and
    cancelling or extending it leaves the entry of slot [i] as it is. *)
Theorem X14_cancel_after_defer (t t' : table) (now delay_ms arg tok : Z)
    (cb : option deferred_exec_callback) :
  reachable t ->
  defer_exec now delay_ms cb arg t = Ok (tok, t') ->
  tok <> INVALID_DEFERRED_TOKEN ->
  exists (i : nat) (e' : deferred_executor_t),
    occupied t i = false /\
    basic_executors t' !! i = Some e' /\ occupied t' i = true /\
    token e' = tok /\ trigger_time e' = uint32_t (now + delay_ms) /\
    callback e' = cb /\ cb_arg e' = arg /\
    (in_band i tok ->
     exists t'' : table,
       cancel_deferred_exec tok t' = Ok (true, t'') /\
       basic_executors t'' !! i = Some (mk_executor tok (trigger_time e') None NULL) /\
       occupied t'' i = true) /\
    (~ in_band i tok ->
     token_index tok <> i /\
     (forall (b : bool) (t'' : table),
         cancel_deferred_exec tok t' = Ok (b, t'') ->
         basic_executors t'' !! i = Some e') /\
     (forall (now' delay' : Z) (b : bool) (t'' : table),
         extend_deferred_exec now' tok delay' t' = Ok (b, t'') ->
         basic_executors t'' !! i = Some e')).
Proof.
  intros Hreach Hrun Hvalid. pose proof (reachable_ok t Hreach) as Hok.
  pose proof (defer_exec_ok now delay_ms arg tok cb t t' Hok Hrun) as Hok'.
  destruct (defer_exec_claimed_slot now delay_ms arg tok cb t t' Hok Hrun Hvalid)
    as (i & e' & Hwasfree & He' & Hocc & Htok & Htrig & Hcb & Harg).
  pose proof (index_lt_max _ _ _ (ok_length t' Hok') He') as Hi.
  assert (Hrange : 0 <= tok < MAX_TOKEN_VALUE).
  { pose proof (ok_token t' Hok' i e' He') as Hb. rewrite Htok in Hb.
    revert Hb Hi. unfold MAX_TOKEN_VALUE, MAX_DEFERRED_EXECUTORS. change band_size with 64.
    lia. }
  exists i, e'. split; [assumption |]. split; [assumption |]. split; [assumption |].
  split; [assumption |]. split; [assumption |]. split; [assumption |].
  split; [assumption |]. split.
  - intros Hband. pose proof (in_band_index i tok Hi Hband) as Hidx.
    rewrite <- Hidx in He'.
    rewrite (cancel_eq tok t' e' He'), Htok, Z.eqb_refl.
    eexists. split; [reflexivity |]. rewrite <- Hidx. split.
    + cbn [set_entry basic_executors]. rewrite list_lookup_insert_eq
        by (apply lookup_lt_Some in He'; exact He').
      unfold set_cb_arg, set_callback. cbn. rewrite Htok. reflexivity.
    + rewrite Hidx. exact Hocc.
  - intros Hout.
    assert (Hne : i <> token_index tok).
    { intros Heq. apply Hout. apply token_index_in_band; congruence. }
    split; [congruence |]. split.
    + intros b t'' Hc. destruct (cancel_tokens _ _ _ _ Hc) as (_ & _ & Hsame).
      destruct (Hsame i) as (_ & _ & Hother & _). rewrite (Hother Hne). assumption.
    + intros now' delay' b t'' Hx.
      unfold extend_deferred_exec, extend_deferred_exec_advanced in Hx.
      destruct ((delay' =? 0) || (tok =? INVALID_DEFERRED_TOKEN));
        [injection Hx as _ <-; assumption |].
      unfold entry_at in Hx.
      destruct (basic_executors t' !! token_index tok) as [e0 |]; [| discriminate].
      cbn [bind] in Hx. destruct (token e0 =? tok); injection Hx as _ <-;
        [| assumption].
      cbn [set_entry basic_executors]. rewrite list_lookup_insert_ne by congruence.
      assumption.
Qed.

Lemma X14_cancel_after_defer_witness :
  exists (i : nat) (e' : deferred_executor_t),
    occupied booked_once i = false /\
    basic_executors booked_twice !! i = Some e' /\ occupied booked_twice i = true /\
    token e' = 1 /\ trigger_time e' = uint32_t (0 + 10) /\
    callback e' = Some one_shot /\ cb_arg e' = 7 /\
    (in_band i 1 ->
     exists t'' : table,
       cancel_deferred_exec 1 booked_twice = Ok (true, t'') /\
       basic_executors t'' !! i = Some (mk_executor 1 (trigger_time e') None NULL) /\
       occupied t'' i = true) /\
    (~ in_band i 1 ->
     token_index 1 <> i /\
     (forall (b : bool) (t'' : table),
         cancel_deferred_exec 1 booked_twice = Ok (b, t'') ->
         basic_executors t'' !! i = Some e') /\
     (forall (now' delay' : Z) (b : bool) (t'' : table),
         extend_deferred_exec now' 1 delay' booked_twice = Ok (b, t'') ->
         basic_executors t'' !! i = Some e')).
Proof.
  apply (X14_cancel_after_defer booked_once booked_twice 0 10 7 1 (Some one_shot)).
  - apply booked_once_reachable.
  - reflexivity.
  - discriminate.
Defined.
